(** * Laffey Matrix fee comparison: a shallow embedding

    The calculation lives in [src/app/api/generate/route.ts]
    ([calculateLaffeyComparison]) and [src/lib/document-utils.ts]
    ([getLaffeyTier], [calculateLaffeyRate]).

    Numbers.  A TypeScript [number] is an IEEE double.  The development
    works under exact arithmetic: a finite number is a canonical rational
    ([Qc], so that equality of values is Leibniz equality), and the three
    special values a division can produce are kept, because the running
    weighted average divides by a total of hours that can be zero.  Signed
    zeros are not distinguished (zero counts as +0), and rounding is not
    modelled, nor the overflow of a finite result to an infinity.

    What rests on exactness.  The statements about totals, blended rates
    and the order of the entries (direct sum, weighted average, invariance
    under permutation) are statements under exact arithmetic, as the
    specification frames them.  The other theorems are chosen so that they
    do not rest on it: they compare, select, group and order, relate two
    runs of the same operations on the same values, or relate a test
    [x <= y] to the sign of [y - x], and hold of doubles as well. *)

From Stdlib Require Import QArith Qcanon ZArith NArith List Ascii String Bool Lia Lqa Permutation.
Import ListNotations.

Open Scope string_scope.
Open Scope list_scope.
Open Scope Qc_scope.

(* ------------------------------------------------------------------ *)
(** ** Numbers *)

Inductive number : Set :=
| Fin (q : Qc)
| PInf
| NInf
| NaN.

Definition ofZ (z : Z) : Qc := Q2Qc (inject_Z z).
Arguments ofZ z%_Z.

Definition Qcleb (a b : Qc) : bool := Qle_bool a b.
Definition Qceqb (a b : Qc) : bool := Qeq_bool a b.

(** Sign of a value as a [comparison] with zero: [Gt] positive, [Lt]
    negative, [Eq] zero (or no sign, for [NaN]). *)
Definition sgn (x : number) : comparison :=
  match x with
  | Fin q => q ?= 0
  | PInf => Gt
  | NInf => Lt
  | NaN => Eq
  end.

Definition sgn_mul (a b : comparison) : comparison :=
  match a, b with
  | Eq, _ | _, Eq => Eq
  | Gt, Gt | Lt, Lt => Gt
  | _, _ => Lt
  end.

(** The infinity of a given sign; a zero sign stands for the undefined
    forms 0 * Infinity and 0 / 0. *)
Definition inf_of (c : comparison) : number :=
  match c with
  | Gt => PInf
  | Lt => NInf
  | Eq => NaN
  end.

(** The operations, on exact values: two finite numbers give the exact
    rational result; the special values follow the rules of the
    language. *)
Definition num_add (x y : number) : number :=
  match x, y with
  | NaN, _ | _, NaN => NaN
  | Fin a, Fin b => Fin (a + b)
  | PInf, NInf | NInf, PInf => NaN
  | PInf, _ | _, PInf => PInf
  | NInf, _ | _, NInf => NInf
  end.

Definition num_opp (x : number) : number :=
  match x with
  | Fin a => Fin (- a)
  | PInf => NInf
  | NInf => PInf
  | NaN => NaN
  end.

Definition num_sub (x y : number) : number := num_add x (num_opp y).

Definition num_mul (x y : number) : number :=
  match x, y with
  | NaN, _ | _, NaN => NaN
  | Fin a, Fin b => Fin (a * b)
  | _, _ => inf_of (sgn_mul (sgn x) (sgn y))
  end.

Definition num_div (x y : number) : number :=
  match x, y with
  | NaN, _ | _, NaN => NaN
  | Fin a, Fin b => if Qceqb b 0 then inf_of (a ?= 0) else Fin (a / b)
  | Fin _, _ => Fin 0
  | _, Fin b => inf_of (sgn_mul (sgn x) (if Qceqb b 0 then Gt else b ?= 0))
  | _, _ => NaN
  end.

(** [x <= y] of the language: false as soon as one side is [NaN]. *)
Definition num_leb (x y : number) : bool :=
  match x, y with
  | NaN, _ | _, NaN => false
  | Fin a, Fin b => Qcleb a b
  | NInf, _ => true
  | _, PInf => true
  | _, _ => false
  end.

(** The order on numbers as a relation, stated on its own: [NaN] is
    related to nothing, the infinities are the two ends. *)
Inductive num_le : number -> number -> Prop :=
| le_fin a b : a <= b -> num_le (Fin a) (Fin b)
| le_ninf y : y <> NaN -> num_le NInf y
| le_pinf x : x <> NaN -> num_le x PInf.

(** A value read where a number is expected: [None] is [undefined]
    (a property missing from the request body), which arithmetic turns
    into [NaN]. *)
Definition to_number (v : option Qc) : number :=
  match v with
  | Some q => Fin q
  | None => NaN
  end.

(** Truthiness of a possibly missing number, as [||] tests it:
    [undefined] and [0] are falsy. *)
Definition truthy (v : option Qc) : bool :=
  match v with
  | Some q => negb (Qceqb q 0)
  | None => false
  end.

(** [a || b] on possibly missing numbers. *)
Definition js_or (a b : option Qc) : option Qc :=
  if truthy a then a else b.

(* ------------------------------------------------------------------ *)
(** ** Data *)

(** [interface BillingEntry] *)
Module BillingEntry.
Record t : Set := mk {
  attorney : string;
  hours : Qc;
  rate : Qc;
  description : string;
  date : string;
  yearsExperience : option Qc
}.
End BillingEntry.

(** Element type of [GenerateRequest["attorneys"]] *)
Module Attorney.
Record t : Set := mk {
  name : string;
  yearsExperience : Qc;
  isParalegal : bool
}.
End Attorney.

(** [GenerateRequest["laffeyMatrix"]].  The body is an unchecked cast of
    [request.json()], so a rate can be absent at run time: [None]. *)
Module LaffeyMatrix.
Record t : Set := mk {
  tier1to3Rate : option Qc;
  tier4to7Rate : option Qc;
  tier8to10Rate : option Qc;
  tier11to19Rate : option Qc;
  tier20PlusRate : option Qc;
  paralegalRate : option Qc
}.
End LaffeyMatrix.

(* ------------------------------------------------------------------ *)
(** ** Tier resolution ([document-utils.ts], lines 336-360) *)

Definition getLaffeyTier (yearsExperience : Qc) : string :=
  if Qcleb yearsExperience (ofZ 3) then "tier1to3"
  else if Qcleb yearsExperience (ofZ 7) then "tier4to7"
  else if Qcleb yearsExperience (ofZ 10) then "tier8to10"
  else if Qcleb yearsExperience (ofZ 19) then "tier11to19"
  else "tier20Plus".

Definition calculateLaffeyRate (yearsExperience : Qc) (laffeyMatrix : LaffeyMatrix.t)
  : option Qc :=
  if Qcleb yearsExperience (ofZ 3) then LaffeyMatrix.tier1to3Rate laffeyMatrix
  else if Qcleb yearsExperience (ofZ 7) then LaffeyMatrix.tier4to7Rate laffeyMatrix
  else if Qcleb yearsExperience (ofZ 10) then LaffeyMatrix.tier8to10Rate laffeyMatrix
  else if Qcleb yearsExperience (ofZ 19) then LaffeyMatrix.tier11to19Rate laffeyMatrix
  else LaffeyMatrix.tier20PlusRate laffeyMatrix.

(* ------------------------------------------------------------------ *)
(** ** The per-attorney map ([route.ts], lines 145-200)

    [new Map<string, {hours, billedRate, yearsExperience}>()]: a map that
    iterates in insertion order, hence an association list with one
    binding per key, new keys going to the end. *)

Module Aggregate.
Record t : Set := mk {
  hours : number;
  billedRate : number;
  yearsExperience : Qc
}.
End Aggregate.

Definition AttorneyMap : Set := list (string * Aggregate.t).

Fixpoint map_get (m : AttorneyMap) (k : string) : option Aggregate.t :=
  match m with
  | [] => None
  | (k', v) :: m' => if String.eqb k' k then Some v else map_get m' k
  end.

(** [Map.prototype.set]; also the effect of assigning to the fields of
    the object [get] returned, which stays at its place in the map. *)
Fixpoint map_set (m : AttorneyMap) (k : string) (v : Aggregate.t) : AttorneyMap :=
  match m with
  | [] => [(k, v)]
  | (k', v') :: m' =>
      if String.eqb k' k then (k', v) :: m' else (k', v') :: map_set m' k v
  end.

(** [attorneys?.find(a => a.name === entry.attorney)?.yearsExperience] *)
Definition rosterYears (attorneys : option (list Attorney.t)) (attorney : string)
  : option Qc :=
  match attorneys with
  | None => None
  | Some l =>
      match find (fun a => String.eqb (Attorney.name a) attorney) l with
      | Some a => Some (Attorney.yearsExperience a)
      | None => None
      end
  end.

(** [entry.yearsExperience || attorneys?.find(...)?.yearsExperience || 5] *)
Definition yearsExp (attorneys : option (list Attorney.t)) (entry : BillingEntry.t) : Qc :=
  match js_or (js_or (BillingEntry.yearsExperience entry)
                     (rosterYears attorneys (BillingEntry.attorney entry)))
              (Some (ofZ 5)) with
  | Some y => y
  | None => ofZ 5
  end.

(** Body of the first loop (lines 152-169).  The update reads
    [existing.hours] before it is overwritten. *)
Definition aggregate_entry (attorneys : option (list Attorney.t))
  (byAttorney : AttorneyMap) (entry : BillingEntry.t) : AttorneyMap :=
  match map_get byAttorney (BillingEntry.attorney entry) with
  | Some existing =>
      let totalHours :=
        num_add (Aggregate.hours existing) (Fin (BillingEntry.hours entry)) in
      map_set byAttorney (BillingEntry.attorney entry)
        (Aggregate.mk
           totalHours
           (num_div
              (num_add
                 (num_mul (Aggregate.billedRate existing) (Aggregate.hours existing))
                 (num_mul (Fin (BillingEntry.rate entry)) (Fin (BillingEntry.hours entry))))
              totalHours)
           (Aggregate.yearsExperience existing))
  | None =>
      map_set byAttorney (BillingEntry.attorney entry)
        (Aggregate.mk
           (Fin (BillingEntry.hours entry))
           (Fin (BillingEntry.rate entry))
           (yearsExp attorneys entry))
  end.

Definition aggregate (attorneys : option (list Attorney.t))
  (entries : list BillingEntry.t) : AttorneyMap :=
  fold_left (aggregate_entry attorneys) entries [].

(** Element type of [LaffeyComparisonResult["byAttorney"]] *)
Module Row.
Record t : Set := mk {
  attorney : string;
  hours : number;
  billedRate : number;
  laffeyRate : option Qc;
  billedAmount : number;
  laffeyAmount : number
}.
End Row.

(** [interface LaffeyComparisonResult] *)
Module LaffeyComparisonResult.
Record t : Set := mk {
  totalBilled : number;
  totalLaffey : number;
  difference : number;
  isUnderLaffey : bool;
  byAttorney : list Row.t
}.
End LaffeyComparisonResult.

(** The row pushed for one binding of the map. *)
Definition row_of (laffeyMatrix : LaffeyMatrix.t) (binding : string * Aggregate.t) : Row.t :=
  let (attorney, data) := binding in
  let laffeyRate := calculateLaffeyRate (Aggregate.yearsExperience data) laffeyMatrix in
  let billedAmount := num_mul (Aggregate.hours data) (Aggregate.billedRate data) in
  let laffeyAmount := num_mul (Aggregate.hours data) (to_number laffeyRate) in
  Row.mk attorney (Aggregate.hours data) (Aggregate.billedRate data)
         laffeyRate billedAmount laffeyAmount.

(** State of the second loop: [result], [totalBilled], [totalLaffey]. *)
Record totals : Set := mkTotals {
  result : list Row.t;
  totalBilled : number;
  totalLaffey : number
}.

(** Body of the second loop (lines 175-191). *)
Definition total_entry (laffeyMatrix : LaffeyMatrix.t) (st : totals)
  (binding : string * Aggregate.t) : totals :=
  let row := row_of laffeyMatrix binding in
  mkTotals (result st ++ [row])
           (num_add (totalBilled st) (Row.billedAmount row))
           (num_add (totalLaffey st) (Row.laffeyAmount row)).

Definition calculateLaffeyComparison (entries : list BillingEntry.t)
  (laffeyMatrix : LaffeyMatrix.t) (attorneys : option (list Attorney.t))
  : LaffeyComparisonResult.t :=
  let byAttorney := aggregate attorneys entries in
  let st := fold_left (total_entry laffeyMatrix) byAttorney
                      (mkTotals [] (Fin 0) (Fin 0)) in
  LaffeyComparisonResult.mk
    (totalBilled st)
    (totalLaffey st)
    (num_sub (totalLaffey st) (totalBilled st))
    (num_leb (totalBilled st) (totalLaffey st))
    (result st).

(** How a call ends.  The error kinds are the ones the specification
    names; the function body holds no [throw], and on values of the
    declared types none of its operations ([Map.get], [Map.set],
    [Array.find], arithmetic and comparison of numbers) throws, so a call
    always ends by returning its record. *)
Inductive CalcError : Set := InvalidInput | IncompleteSchedule.

Inductive completion (A : Type) : Type :=
| Returns (a : A)
| Throws (e : CalcError).
Arguments Returns {A} a.
Arguments Throws {A} e.

Definition run_calculateLaffeyComparison (entries : list BillingEntry.t)
  (laffeyMatrix : LaffeyMatrix.t) (attorneys : option (list Attorney.t))
  : completion LaffeyComparisonResult.t :=
  Returns (calculateLaffeyComparison entries laffeyMatrix attorneys).

(* ------------------------------------------------------------------ *)
(** ** Sample data and the notions of the statements *)

(** A billing entry with integer hours and rate, no description or
    date. *)
Definition entry (attorney : string) (hours rate : Z) (years : option Z) : BillingEntry.t :=
  BillingEntry.mk attorney (ofZ hours) (ofZ rate) "" ""
    (match years with Some y => Some (ofZ y) | None => None end).
Arguments entry attorney%_string (hours rate)%_Z years.

(** The 2024-2025 period of the seed data. *)
Definition matrix2024 : LaffeyMatrix.t :=
  LaffeyMatrix.mk (Some (ofZ 402)) (Some (ofZ 492)) (Some (ofZ 585))
                  (Some (ofZ 680)) (Some (ofZ 822)) (Some (ofZ 185)).

(** The specification's names for the five tiers, each with the label
    [getLaffeyTier] returns for it. *)
Inductive Tier : Set := junior | mid | senior | principal | veteran.

Definition tier_label (t : Tier) : string :=
  match t with
  | junior => "tier1to3"
  | mid => "tier4to7"
  | senior => "tier8to10"
  | principal => "tier11to19"
  | veteran => "tier20Plus"
  end.

(** The resolution order in the specification's words: the entry's own
    value if present, else the roster's entry of the same name, else the
    default. *)
Definition resolveYearsExperience (roster : option (list Attorney.t))
  (e : BillingEntry.t) (defaultYearsExperience : Qc) : Qc :=
  match BillingEntry.yearsExperience e with
  | Some y => y
  | None =>
      match roster with
      | Some l =>
          match find (fun a => String.eqb (Attorney.name a) (BillingEntry.attorney e)) l with
          | Some a => Attorney.yearsExperience a
          | None => defaultYearsExperience
          end
      | None => defaultYearsExperience
      end
  end.

(** Sums over the raw entries. *)
Definition sumHours (l : list BillingEntry.t) : Qc :=
  fold_right (fun e acc => BillingEntry.hours e + acc) 0 l.

Definition sumAmount (l : list BillingEntry.t) : Qc :=
  fold_right (fun e acc => BillingEntry.hours e * BillingEntry.rate e + acc) 0 l.

Definition num_sum (l : list number) : number := fold_right num_add (Fin 0) l.

(** The entries of one attorney, in input order. *)
Definition entries_of (k : string) (es : list BillingEntry.t) : list BillingEntry.t :=
  filter (fun e => String.eqb (BillingEntry.attorney e) k) es.

(** Does folding [e] into [m] divide by a zero total of hours? *)
Definition zero_total (m : AttorneyMap) (e : BillingEntry.t) : bool :=
  match map_get m (BillingEntry.attorney e) with
  | Some existing =>
      match num_add (Aggregate.hours existing) (Fin (BillingEntry.hours e)) with
      | Fin t => Qceqb t 0
      | _ => false
      end
  | None => false
  end.

(** No update of the first loop, started from [m], divides by zero. *)
Fixpoint safe_from (attorneys : option (list Attorney.t)) (m : AttorneyMap)
  (es : list BillingEntry.t) : bool :=
  match es with
  | [] => true
  | e :: es' =>
      negb (zero_total m e) && safe_from attorneys (aggregate_entry attorneys m e) es'
  end.

Definition no_zero_total (attorneys : option (list Attorney.t))
  (es : list BillingEntry.t) : bool :=
  safe_from attorneys [] es.

(** The hours-weighted average of a list of entries of one attorney, as
    the running update leaves it when no total is zero: the rate of a
    lone entry, else total amount over total hours. *)
Definition blended (l : list BillingEntry.t) : Qc :=
  match l with
  | [] => 0
  | [e] => BillingEntry.rate e
  | _ => sumAmount l / sumHours l
  end.



(** A row whose attorney bills exactly at the benchmark rate of the
    tier. *)
Definition at_benchmark (row : Row.t) : Prop :=
  match Row.laffeyRate row, Row.billedRate row with
  | Some q, Fin b => b = q
  | _, _ => False
  end.


(** The same schedule without its [tier4to7Rate]. *)
Definition matrixNoMid : LaffeyMatrix.t :=
  LaffeyMatrix.mk (Some (ofZ 402)) None (Some (ofZ 585))
                  (Some (ofZ 680)) (Some (ofZ 822)) (Some (ofZ 185)).

(** Hours and blended rate stored for an attorney, if any. *)
Definition stored (attorneys : option (list Attorney.t)) (es : list BillingEntry.t)
  (k : string) : option (number * number) :=
  match map_get (aggregate attorneys es) k with
  | Some d => Some (Aggregate.hours d, Aggregate.billedRate d)
  | None => None
  end.


(** The benchmark rate of an attorney among the entries: the rate of the
    tier of the experience resolved at the attorney's first entry. *)
Definition attorneyRate (attorneys : option (list Attorney.t))
  (laffeyMatrix : LaffeyMatrix.t) (es : list BillingEntry.t) (k : string) : option Qc :=
  match entries_of k es with
  | first :: _ => calculateLaffeyRate (yearsExp attorneys first) laffeyMatrix
  | [] => None
  end.

(** An entry billed exactly at the benchmark rate of its attorney. *)
Definition bills_at_benchmark (attorneys : option (list Attorney.t))
  (laffeyMatrix : LaffeyMatrix.t) (es : list BillingEntry.t) (e : BillingEntry.t) : Prop :=
  attorneyRate attorneys laffeyMatrix es (BillingEntry.attorney e)
  = Some (BillingEntry.rate e).

(* ------------------------------------------------------------------ *)
(** ** Around the comparison: further notions

    Keys of an insertion-ordered map built from a list of keys: each key
    once, in the order of its first occurrence. *)

Definition firstKeys (ks : list string) : list string :=
  fold_left (fun acc k => if existsb (String.eqb k) acc then acc else acc ++ [k]) ks [].

(** The schedule field a tier label names. *)
Definition rateOfLabel (laffeyMatrix : LaffeyMatrix.t) (label : string) : option Qc :=
  if String.eqb label "tier1to3" then LaffeyMatrix.tier1to3Rate laffeyMatrix
  else if String.eqb label "tier4to7" then LaffeyMatrix.tier4to7Rate laffeyMatrix
  else if String.eqb label "tier8to10" then LaffeyMatrix.tier8to10Rate laffeyMatrix
  else if String.eqb label "tier11to19" then LaffeyMatrix.tier11to19Rate laffeyMatrix
  else if String.eqb label "tier20Plus" then LaffeyMatrix.tier20PlusRate laffeyMatrix
  else None.

(** A schedule whose rates do not decrease from one tier to the next. *)
Definition ascending (laffeyMatrix : LaffeyMatrix.t) : Prop :=
  exists r1 r2 r3 r4 r5,
    LaffeyMatrix.tier1to3Rate laffeyMatrix = Some r1 /\
    LaffeyMatrix.tier4to7Rate laffeyMatrix = Some r2 /\
    LaffeyMatrix.tier8to10Rate laffeyMatrix = Some r3 /\
    LaffeyMatrix.tier11to19Rate laffeyMatrix = Some r4 /\
    LaffeyMatrix.tier20PlusRate laffeyMatrix = Some r5 /\
    r1 <= r2 /\ r2 <= r3 /\ r3 <= r4 /\ r4 <= r5.

(** [Math.abs] *)
Definition num_abs (x : number) : number :=
  match x with
  | Fin q => Fin (if Qcleb 0 q then q else - q)
  | PInf | NInf => PInf
  | NaN => NaN
  end.

(** [x < y] of the language. *)
Definition num_ltb (x y : number) : bool :=
  match x, y with
  | NaN, _ | _, NaN => false
  | Fin a, Fin b => negb (Qcleb b a)
  | PInf, _ => false
  | _, NInf => false
  | _, _ => true
  end.

(** Truthiness of a number: [0] and [NaN] are falsy. *)
Definition num_truthy (x : number) : bool :=
  match x with
  | Fin q => negb (Qceqb q 0)
  | NaN => false
  | _ => true
  end.

(** [x || d] on numbers. *)
Definition num_or (x d : number) : number := if num_truthy x then x else d.

(** Exhibit C of the full package ([route.ts], lines 634-657): the
    number in the closing sentence. *)
Definition exhibitC_amount (laffeyComparison : LaffeyComparisonResult.t) : number :=
  if LaffeyComparisonResult.isUnderLaffey laffeyComparison
  then LaffeyComparisonResult.difference laffeyComparison
  else num_abs (LaffeyComparisonResult.difference laffeyComparison).

(** A row whose two amounts are finite, the billed one at most the
    benchmark one. *)
Definition amount_at_or_under (row : Row.t) : Prop :=
  match Row.billedAmount row, Row.laffeyAmount row with
  | Fin b, Fin l => b <= l
  | _, _ => False
  end.

(* ------------------------------------------------------------------ *)
(** ** The per-timekeeper summaries of the billing exhibit

    The other [Map]s of [route.ts] hold other values; the same
    insertion-ordered map, for any type of values. *)

Fixpoint amap_get {V : Type} (m : list (string * V)) (k : string) : option V :=
  match m with
  | [] => None
  | (k', v) :: m' => if String.eqb k' k then Some v else amap_get m' k
  end.

Fixpoint amap_set {V : Type} (m : list (string * V)) (k : string) (v : V)
  : list (string * V) :=
  match m with
  | [] => [(k, v)]
  | (k', v') :: m' =>
      if String.eqb k' k then (k', v) :: m' else (k', v') :: amap_set m' k v
  end.

(** One round of a grouping loop: the binding of the element's key is
    replaced by a function of the old binding, if any, and the element. *)
Definition group_step {V E : Type} (key : E -> string) (upd : option V -> E -> V)
  (m : list (string * V)) (e : E) : list (string * V) :=
  amap_set m (key e) (upd (amap_get m (key e)) e).

(** Value type of [attorneySummary] in the billing summary
    ([route.ts], line 1179). *)
Module Summary.
Record t : Set := mk {
  hours : number;
  amount : number;
  avgRate : number
}.
End Summary.

(** Body of the loop of lines 1180-1185:
    [get(entry.attorney) || { hours: 0, amount: 0, avgRate: 0 }], the two
    [+=] with [entry.hours || 0] and [entry.rate || 0], then [set]. *)
Definition summary_entry (attorneySummary : list (string * Summary.t))
  (entry : BillingEntry.t) : list (string * Summary.t) :=
  let existing :=
    match amap_get attorneySummary (BillingEntry.attorney entry) with
    | Some s => s
    | None => Summary.mk (Fin 0) (Fin 0) (Fin 0)
    end in
  let hours := num_or (Fin (BillingEntry.hours entry)) (Fin 0) in
  let rate := num_or (Fin (BillingEntry.rate entry)) (Fin 0) in
  amap_set attorneySummary (BillingEntry.attorney entry)
    (Summary.mk (num_add (Summary.hours existing) hours)
                (num_add (Summary.amount existing) (num_mul hours rate))
                (Summary.avgRate existing)).

(** Body of the loop of lines 1188-1190:
    [data.avgRate = data.hours > 0 ? data.amount / data.hours : 0]. *)
Definition average_rate (data : Summary.t) : Summary.t :=
  Summary.mk (Summary.hours data) (Summary.amount data)
             (if num_ltb (Fin 0) (Summary.hours data)
              then num_div (Summary.amount data) (Summary.hours data)
              else Fin 0).

Definition attorneySummary (entries : list BillingEntry.t) : list (string * Summary.t) :=
  map (fun b => (fst b, average_rate (snd b))) (fold_left summary_entry entries []).

(** Value type of [attorneySummary] in the fee table of the motion
    ([route.ts], line 1899). *)
Module FeeLine.
Record t : Set := mk {
  hours : number;
  amount : number;
  rate : number
}.
End FeeLine.

(** Body of the loop of lines 1900-1905; a new line starts with
    [rate: entry.rate]. *)
Definition feeLine_entry (attorneySummary : list (string * FeeLine.t))
  (entry : BillingEntry.t) : list (string * FeeLine.t) :=
  let existing :=
    match amap_get attorneySummary (BillingEntry.attorney entry) with
    | Some s => s
    | None => FeeLine.mk (Fin 0) (Fin 0) (Fin (BillingEntry.rate entry))
    end in
  let hours := num_or (Fin (BillingEntry.hours entry)) (Fin 0) in
  let rate := num_or (Fin (BillingEntry.rate entry)) (Fin 0) in
  amap_set attorneySummary (BillingEntry.attorney entry)
    (FeeLine.mk (num_add (FeeLine.hours existing) hours)
                (num_add (FeeLine.amount existing) (num_mul hours rate))
                (FeeLine.rate existing)).

Definition feeSummary (entries : list BillingEntry.t) : list (string * FeeLine.t) :=
  fold_left feeLine_entry entries [].

(** The two loop bodies above as functions of the old binding. *)
Definition summary_update (old : option Summary.t) (entry : BillingEntry.t) : Summary.t :=
  let existing :=
    match old with
    | Some s => s
    | None => Summary.mk (Fin 0) (Fin 0) (Fin 0)
    end in
  let hours := num_or (Fin (BillingEntry.hours entry)) (Fin 0) in
  let rate := num_or (Fin (BillingEntry.rate entry)) (Fin 0) in
  Summary.mk (num_add (Summary.hours existing) hours)
             (num_add (Summary.amount existing) (num_mul hours rate))
             (Summary.avgRate existing).

Definition feeLine_update (old : option FeeLine.t) (entry : BillingEntry.t) : FeeLine.t :=
  let existing :=
    match old with
    | Some s => s
    | None => FeeLine.mk (Fin 0) (Fin 0) (Fin (BillingEntry.rate entry))
    end in
  let hours := num_or (Fin (BillingEntry.hours entry)) (Fin 0) in
  let rate := num_or (Fin (BillingEntry.rate entry)) (Fin 0) in
  FeeLine.mk (num_add (FeeLine.hours existing) hours)
             (num_add (FeeLine.amount existing) (num_mul hours rate))
             (FeeLine.rate existing).

(* ------------------------------------------------------------------ *)
(** ** Work categories of the motion ([route.ts], lines 928-946)

    [String.prototype.includes]: does [kw] occur somewhere in [s]? *)

Fixpoint includes (s kw : string) : bool :=
  String.prefix kw s ||
  match s with
  | EmptyString => false
  | String _ s' => includes s' kw
  end.

(** The chain of tests of lines 931-939, on the lower-cased
    description. *)
Definition workCategory (desc : string) : string :=
  if includes desc "research" then "Legal research"
  else if includes desc "draft" || includes desc "prepar" then "Document preparation"
  else if includes desc "discovery" || includes desc "interrogator" || includes desc "request"
       then "Discovery"
  else if includes desc "deposition" then "Depositions"
  else if includes desc "motion" || includes desc "compel" then "Motions practice"
  else if includes desc "settlement" || includes desc "negoti" then "Settlement negotiations"
  else if includes desc "court" || includes desc "hearing" || includes desc "appearance"
       then "Court appearances"
  else if includes desc "client" || includes desc "intake" || includes desc "consult"
       then "Client communications"
  else "Other legal work".

(** The category of an entry: [entry.description?.toLowerCase() || ""]
    goes through the tests.  [toLowerCase] is the language's own
    function and is taken as given. *)
Definition entryCategory (toLowerCase : string -> string) (entry : BillingEntry.t) : string :=
  workCategory (toLowerCase (BillingEntry.description entry)).

(** [(categories.get(category) || 0) + entry.hours] *)
Definition categories_update (old : option number) (entry : BillingEntry.t) : number :=
  num_add (match old with Some x => num_or x (Fin 0) | None => Fin 0 end)
          (Fin (BillingEntry.hours entry)).

(** Body of the loop of lines 928-942, and the loop. *)
Definition categories_entry (toLowerCase : string -> string)
  (categories : list (string * number)) (entry : BillingEntry.t)
  : list (string * number) :=
  let category := entryCategory toLowerCase entry in
  amap_set categories category (categories_update (amap_get categories category) entry).

Definition workCategories (toLowerCase : string -> string)
  (entries : list BillingEntry.t) : list (string * number) :=
  fold_left (categories_entry toLowerCase) entries [].

(** The nine labels of the chain. *)
Definition categoryLabels : list string :=
  ["Legal research"; "Document preparation"; "Discovery"; "Depositions";
   "Motions practice"; "Settlement negotiations"; "Court appearances";
   "Client communications"; "Other legal work"].

(* ------------------------------------------------------------------ *)
(** ** Work categories of the motion, table-driven ([route.ts], lines
    1827-1871) *)

(** [categoryMap]; [Object.entries] walks it in this order. *)
Definition categoryMap : list (string * string) :=
  [("intake", "Case Evaluation and Client Communications");
   ("consult", "Case Evaluation and Client Communications");
   ("client", "Case Evaluation and Client Communications");
   ("research", "Legal Research and Analysis");
   ("draft", "Document Preparation and Pleadings");
   ("prepar", "Document Preparation and Pleadings");
   ("complaint", "Document Preparation and Pleadings");
   ("discovery", "Discovery Practice");
   ("interrogat", "Discovery Practice");
   ("request", "Discovery Practice");
   ("deposition", "Depositions");
   ("motion", "Law and Motion");
   ("compel", "Law and Motion");
   ("settlement", "Settlement Negotiations");
   ("negoti", "Settlement Negotiations");
   ("mediat", "Settlement Negotiations");
   ("court", "Court Appearances");
   ("hearing", "Court Appearances");
   ("appear", "Court Appearances")].

(** The inner loop with its [break]: the category of the first keyword
    of the table that occurs in [desc], else the category so far. *)
Fixpoint firstCategory (desc : string) (table : list (string * string))
  (category : string) : string :=
  match table with
  | [] => category
  | (keyword, cat) :: rest =>
      if includes desc keyword then cat else firstCategory desc rest category
  end.

Definition tableCategory (toLowerCase : string -> string) (entry : BillingEntry.t) : string :=
  firstCategory (toLowerCase (BillingEntry.description entry)) categoryMap "Other Legal Work".

Module CategoryLine.
Record t : Set := mk {
  hours : number;
  items : list string
}.
End CategoryLine.

(** Body of the outer loop: [has]/[set] of an empty line, then
    [cat.hours += entry.hours || 0] on the line of the map. *)
Definition categoryLine_entry (toLowerCase : string -> string)
  (categories : list (string * CategoryLine.t)) (entry : BillingEntry.t)
  : list (string * CategoryLine.t) :=
  let category := tableCategory toLowerCase entry in
  let categories1 :=
    match amap_get categories category with
    | Some _ => categories
    | None => amap_set categories category (CategoryLine.mk (Fin 0) [])
    end in
  match amap_get categories1 category with
  | Some cat =>
      amap_set categories1 category
        (CategoryLine.mk
           (num_add (CategoryLine.hours cat) (num_or (Fin (BillingEntry.hours entry)) (Fin 0)))
           (CategoryLine.items cat))
  | None => categories1
  end.

Definition tableCategories (toLowerCase : string -> string)
  (entries : list BillingEntry.t) : list (string * CategoryLine.t) :=
  fold_left (categoryLine_entry toLowerCase) entries [].

(** The same body as a function of the old line. *)
Definition categoryLine_update (old : option CategoryLine.t) (entry : BillingEntry.t)
  : CategoryLine.t :=
  let cat := match old with Some c => c | None => CategoryLine.mk (Fin 0) [] end in
  CategoryLine.mk
    (num_add (CategoryLine.hours cat) (num_or (Fin (BillingEntry.hours entry)) (Fin 0)))
    (CategoryLine.items cat).

(** The nine labels of the table-driven version. *)
Definition tableLabels : list string :=
  ["Case Evaluation and Client Communications"; "Legal Research and Analysis";
   "Document Preparation and Pleadings"; "Discovery Practice"; "Depositions";
   "Law and Motion"; "Settlement Negotiations"; "Court Appearances";
   "Other Legal Work"].

(* ------------------------------------------------------------------ *)
(** ** File names, truncated cells, issues, days out of service

    Where lengths and character classes matter, a string is the list of
    its UTF-16 code units. *)

Definition jsstring : Set := list N.

Definition units (s : string) : jsstring := map N_of_ascii (list_ascii_of_string s).

(** The class [\s] of a regular expression: white space and line
    terminators. *)
Definition isWhiteSpace (c : N) : bool :=
  ((9 <=? c) && (c <=? 13) || (c =? 32) || (c =? 160) || (c =? 5760)
   || (8192 <=? c) && (c <=? 8202) || (c =? 8232) || (c =? 8233)
   || (c =? 8239) || (c =? 8287) || (c =? 12288) || (c =? 65279))%N.

(** [s.replace(/\s+/g, "_")], scanning from the left: each maximal run
    of white space gives one underscore; [inRun] tells that the previous
    unit belonged to a run. *)
Fixpoint replaceRuns (inRun : bool) (s : jsstring) : jsstring :=
  match s with
  | [] => []
  | c :: s' =>
      if isWhiteSpace c
      then if inRun then replaceRuns true s' else 95%N :: replaceRuns true s'
      else c :: replaceRuns false s'
  end.

Definition replaceWhiteSpace (s : jsstring) : jsstring := replaceRuns false s.

(** The file name chosen by the [switch] of [POST] ([route.ts], lines
    88-111); [None] is the [default] branch, which answers 400. *)
Definition filename (type : string) (clientName : jsstring) : option jsstring :=
  if String.eqb type "motion"
  then Some (units "Motion_for_Fees_" ++ replaceWhiteSpace clientName ++ units ".docx")
  else if String.eqb type "repair_summary"
  then Some (units "Exhibit_A_Repair_Summary_" ++ replaceWhiteSpace clientName ++ units ".docx")
  else if String.eqb type "billing_summary"
  then Some (units "Exhibit_B_Billing_Summary_" ++ replaceWhiteSpace clientName ++ units ".docx")
  else if String.eqb type "full_package"
  then Some (units "Fee_Motion_Package_" ++ replaceWhiteSpace clientName ++ units ".docx")
  else None.

(** The Description cell of the detailed time entries ([route.ts], line
    1221): [substring(0, 60)], then ["..."] when the length is over 60. *)
Definition truncateDescription (description : jsstring) : jsstring :=
  firstn 60 description ++
  (if (60 <? List.length description)%nat then units "..." else []).

(** [interface ExtractedRepairOrder] ([ai.ts], lines 297-310); [None] is
    [null]. *)
Module RepairOrder.
Record t : Set := mk {
  roNumber : option jsstring;
  dealership : option jsstring;
  dateIn : option jsstring;
  dateOut : option jsstring;
  mileageIn : option Qc;
  mileageOut : option Qc;
  daysDown : option Qc;
  customerConcern : option jsstring;
  workPerformed : option jsstring;
  partsReplaced : option jsstring;
  category : option jsstring;
  resolved : option jsstring
}.
End RepairOrder.

(** [repairOrders.reduce((sum, ro) => sum + (ro.daysDown || 0), 0)]
    ([route.ts], line 210). *)
Definition daysOf (ro : RepairOrder.t) : number :=
  match RepairOrder.daysDown ro with
  | Some d => num_or (Fin d) (Fin 0)
  | None => Fin 0
  end.

Definition totalDaysDown (repairOrders : list RepairOrder.t) : number :=
  fold_left (fun sum ro => num_add sum (daysOf ro)) repairOrders (Fin 0).

(** A repair order that carries a number of days other than 0. *)
Definition hasDays (ro : RepairOrder.t) : bool :=
  match RepairOrder.daysDown ro with
  | Some d => negb (Qceqb d 0)
  | None => false
  end.

Definition jsstring_eqb (a b : jsstring) : bool :=
  if list_eq_dec N.eq_dec a b then true else false.

(** [Set.prototype.add]: a set iterates in insertion order. *)
Definition set_add (s : list jsstring) (x : jsstring) : list jsstring :=
  if existsb (jsstring_eqb x) s then s else s ++ [x].

(** The bullets of the repair paragraph ([route.ts], lines 1740-1749):
    the concerns that are neither [null] nor empty, cut at 100 units,
    without repetition, the first five. *)
Definition issues_entry (issues : list jsstring) (ro : RepairOrder.t) : list jsstring :=
  match RepairOrder.customerConcern ro with
  | Some (c :: s) => set_add issues (firstn 100 (c :: s))
  | _ => issues
  end.

Definition issueBullets (repairOrders : list RepairOrder.t) : list jsstring :=
  firstn 5 (fold_left issues_entry repairOrders []).

(** Does the string end inside a run of white space? *)
Definition endsInRun (s : jsstring) : bool :=
  fold_left (fun _ c => isWhiteSpace c) s false.

(** The document types the [switch] of [POST] knows. *)
Definition documentTypes : list string :=
  ["motion"; "repair_summary"; "billing_summary"; "full_package"].

(** What [POST] answers ([route.ts], lines 75-127): the document as an
    attachment under a file name, or an error of status 400 or 500. *)
Inductive Response : Set :=
| Attachment (filename : jsstring)
| Status400
| Status500.

(** The handler, with the calls it awaits taken as given: [bodyRead]
    tells that [request.json()] and what precedes the [switch] return,
    [documentBuilt] that the generator of the chosen branch returns, and
    [bufferPacked] that [Packer.toBuffer] returns.  A call that throws
    lands in the [catch], which answers 500; the file name is assigned
    after the generator has returned. *)
Definition POST (bodyRead : bool) (type : string) (clientName : jsstring)
  (documentBuilt bufferPacked : bool) : Response :=
  if bodyRead then
    match filename type clientName with
    | Some name =>
        if documentBuilt
        then if bufferPacked then Attachment name else Status500
        else Status500
    | None => Status400
    end
  else Status500.

(* ------------------------------------------------------------------ *)
(** ** Arithmetic of numbers *)

Arguments num_add !x !y /.
Arguments num_mul !x !y /.
Arguments num_div !x !y /.
Arguments num_leb !x !y /.
Arguments num_opp !x /.

(** Equality of concrete values: canonical rationals are compared
    through their fractions. *)
Ltac qc_eq :=
  vm_compute;
  repeat lazymatch goal with
    | |- @eq Qc _ _ => apply Qc_is_canon; vm_compute; reflexivity
    | |- _ => progress f_equal
    end.

Lemma Qcleb_ofZ (a b : Z) : Qcleb (ofZ a) (ofZ b) = (a <=? b)%Z.
Proof.
  unfold Qcleb, ofZ. cbn [this Q2Qc].
  destruct (Z.leb_spec a b) as [H | H].
  - apply Qle_bool_iff. rewrite !Qred_correct. now rewrite <- Zle_Qle.
  - destruct (Qle_bool (Qred (inject_Z a)) (Qred (inject_Z b))) eqn:E; [ | reflexivity].
    apply Qle_bool_iff in E. rewrite !Qred_correct in E.
    rewrite <- Zle_Qle in E. lia.
Qed.

Lemma Qcleb_le (a b : Qc) : Qcleb a b = true <-> a <= b.
Proof. unfold Qcleb, Qcle. apply Qle_bool_iff. Qed.

Lemma Qceqb_eq (a b : Qc) : Qceqb a b = true <-> a = b.
Proof.
  unfold Qceqb. rewrite Qeq_bool_iff. split.
  - apply Qc_is_canon.
  - intros ->. reflexivity.
Qed.

Lemma Qceqb_neq (a b : Qc) : Qceqb a b = false <-> a <> b.
Proof.
  rewrite <- Qceqb_eq. destruct (Qceqb a b); split; congruence.
Qed.

Lemma num_add_comm (x y : number) : num_add x y = num_add y x.
Proof. destruct x, y; simpl; try reflexivity. f_equal. ring. Qed.

Lemma num_add_assoc (x y z : number) :
  num_add x (num_add y z) = num_add (num_add x y) z.
Proof. destruct x, y, z; simpl; try reflexivity. f_equal. ring. Qed.

Lemma num_add_0_l (x : number) : num_add (Fin 0) x = x.
Proof. destruct x; simpl; try reflexivity. f_equal. ring. Qed.

Lemma num_add_0_r (x : number) : num_add x (Fin 0) = x.
Proof. rewrite num_add_comm. apply num_add_0_l. Qed.

Lemma num_add_NaN_r (x : number) : num_add x NaN = NaN.
Proof. destruct x; reflexivity. Qed.

Lemma num_mul_NaN_r (x : number) : num_mul x NaN = NaN.
Proof. destruct x; reflexivity. Qed.

Lemma num_leb_NaN_r (x : number) : num_leb x NaN = false.
Proof. destruct x; reflexivity. Qed.

Lemma num_leb_le (x y : number) : num_leb x y = true <-> num_le x y.
Proof.
  split.
  - destruct x, y; simpl; intros H; try discriminate;
      try (constructor; discriminate).
    constructor. now apply Qcleb_le.
  - intros H. destruct H as [a b H | y H | x H].
    + simpl. now apply Qcleb_le.
    + destruct y; simpl; congruence.
    + destruct x; simpl; congruence.
Qed.

Lemma fold_left_num_add (l : list number) (a : number) :
  fold_left num_add l a = num_add a (num_sum l).
Proof.
  revert a. induction l as [ | x l IH]; intros a; simpl.
  - now rewrite num_add_0_r.
  - rewrite IH. now rewrite num_add_assoc.
Qed.

Lemma num_sum_app (l1 l2 : list number) :
  num_sum (l1 ++ l2) = num_add (num_sum l1) (num_sum l2).
Proof.
  induction l1 as [ | x l1 IH]; simpl.
  - now rewrite num_add_0_l.
  - rewrite IH. apply num_add_assoc.
Qed.

Lemma num_sum_NaN (l : list number) : In NaN l -> num_sum l = NaN.
Proof.
  induction l as [ | x l IH]; simpl; intros H; [contradiction | ].
  destruct H as [-> | H]; [reflexivity | ].
  rewrite (IH H). apply num_add_NaN_r.
Qed.


(* ------------------------------------------------------------------ *)
(** ** The map *)

Lemma map_get_set_same (m : AttorneyMap) k v : map_get (map_set m k v) k = Some v.
Proof.
  induction m as [ | [k' v'] m IH]; simpl.
  - now rewrite String.eqb_refl.
  - destruct (String.eqb k' k) eqn:E; simpl; rewrite E; auto.
Qed.

Lemma map_get_set_other (m : AttorneyMap) k v k' :
  k <> k' -> map_get (map_set m k v) k' = map_get m k'.
Proof.
  intros Hne. induction m as [ | [k0 v0] m IH]; simpl.
  - apply String.eqb_neq in Hne. now rewrite Hne.
  - destruct (String.eqb k0 k) eqn:E; simpl.
    + apply String.eqb_eq in E. subst k0.
      apply String.eqb_neq in Hne. now rewrite Hne.
    + now rewrite IH.
Qed.

Lemma map_get_In (m : AttorneyMap) k v : map_get m k = Some v -> In (k, v) m.
Proof.
  induction m as [ | [k' v'] m IH]; simpl; [discriminate | ].
  destruct (String.eqb k' k) eqn:E.
  - apply String.eqb_eq in E. intros [= ->]. subst. now left.
  - auto.
Qed.

Lemma map_get_None (m : AttorneyMap) k : map_get m k = None -> ~ In k (map fst m).
Proof.
  induction m as [ | [k' v'] m IH]; simpl; [tauto | ].
  destruct (String.eqb k' k) eqn:E; [discriminate | ].
  apply String.eqb_neq in E. intros H [H1 | H1]; [congruence | ].
  now apply IH.
Qed.

Lemma In_map_get (m : AttorneyMap) k v :
  NoDup (map fst m) -> In (k, v) m -> map_get m k = Some v.
Proof.
  induction m as [ | [k' v'] m IH]; simpl; [tauto | ].
  intros Hnd [H | H].
  - injection H as -> ->. now rewrite String.eqb_refl.
  - inversion Hnd as [ | ? ? Hnotin Hnd']; subst.
    destruct (String.eqb k' k) eqn:E.
    + apply String.eqb_eq in E. subst k'. exfalso. apply Hnotin.
      change k with (fst (k, v)). now apply in_map.
    + auto.
Qed.

(** A binding that is already there is replaced where it stands; a new
    one goes to the end. *)
Lemma map_set_keys (m : AttorneyMap) k v :
  map fst (map_set m k v) =
  match map_get m k with
  | Some _ => map fst m
  | None => map fst m ++ [k]
  end.
Proof.
  induction m as [ | [k' v'] m IH]; simpl; [reflexivity | ].
  destruct (String.eqb k' k) eqn:E; simpl; [reflexivity | ].
  rewrite IH. now destruct (map_get m k).
Qed.

Lemma map_set_new (m : AttorneyMap) k v :
  map_get m k = None -> map_set m k v = m ++ [(k, v)].
Proof.
  induction m as [ | [k' v'] m IH]; simpl; [reflexivity | ].
  destruct (String.eqb k' k); [discriminate | ].
  intros H. now rewrite IH.
Qed.

Lemma map_set_NoDup (m : AttorneyMap) k v :
  NoDup (map fst m) -> NoDup (map fst (map_set m k v)).
Proof.
  intros H. rewrite map_set_keys. destruct (map_get m k) eqn:E; [exact H | ].
  apply map_get_None in E.
  apply NoDup_rev in H. rewrite <- (rev_involutive (map fst m ++ [k])).
  apply NoDup_rev. rewrite rev_app_distr. simpl.
  constructor; [ | exact H]. now rewrite <- in_rev.
Qed.

(** Effect of an update on a sum taken over the bindings. *)
Lemma num_sum_map_set (f : string * Aggregate.t -> number) (m : AttorneyMap)
  k v old delta :
  map_get m k = Some old ->
  f (k, v) = num_add (f (k, old)) delta ->
  num_sum (map f (map_set m k v)) = num_add (num_sum (map f m)) delta.
Proof.
  intros Hget Hf. induction m as [ | [k' v'] m IH]; simpl in *; [discriminate | ].
  destruct (String.eqb k' k) eqn:E.
  - apply String.eqb_eq in E. subst k'. injection Hget as ->.
    simpl. rewrite Hf.
    rewrite <- !num_add_assoc. f_equal. apply num_add_comm.
  - simpl. rewrite (IH Hget). apply num_add_assoc.
Qed.

(* ------------------------------------------------------------------ *)
(** ** The two loops *)

Lemma aggregate_snoc attorneys es e :
  aggregate attorneys (es ++ [e]) =
  aggregate_entry attorneys (aggregate attorneys es) e.
Proof. unfold aggregate. now rewrite fold_left_app. Qed.

Lemma fold_total_entry laffeyMatrix (m : AttorneyMap) (st : totals) :
  fold_left (total_entry laffeyMatrix) m st =
  mkTotals
    (result st ++ map (row_of laffeyMatrix) m)
    (num_add (totalBilled st)
       (num_sum (map Row.billedAmount (map (row_of laffeyMatrix) m))))
    (num_add (totalLaffey st)
       (num_sum (map Row.laffeyAmount (map (row_of laffeyMatrix) m)))).
Proof.
  revert st. induction m as [ | b m IH]; intros st; simpl.
  - rewrite app_nil_r, !num_add_0_r. now destruct st.
  - rewrite IH. unfold total_entry. cbn [result totalBilled totalLaffey].
    rewrite <- app_assoc. now rewrite <- !num_add_assoc.
Qed.

(** The result record, with its loops unfolded. *)
Lemma calculateLaffeyComparison_eq entries laffeyMatrix attorneys :
  let rows := map (row_of laffeyMatrix) (aggregate attorneys entries) in
  let billed := num_sum (map Row.billedAmount rows) in
  let laffey := num_sum (map Row.laffeyAmount rows) in
  calculateLaffeyComparison entries laffeyMatrix attorneys =
  LaffeyComparisonResult.mk billed laffey (num_sub laffey billed)
                            (num_leb billed laffey) rows.
Proof.
  unfold calculateLaffeyComparison. rewrite fold_total_entry.
  cbn [result totalBilled totalLaffey app]. now rewrite !num_add_0_l.
Qed.

Lemma map_get_aggregate_entry_other attorneys m e k :
  BillingEntry.attorney e <> k ->
  map_get (aggregate_entry attorneys m e) k = map_get m k.
Proof.
  intros Hne. unfold aggregate_entry.
  destruct (map_get m (BillingEntry.attorney e)); now apply map_get_set_other.
Qed.

Lemma aggregate_NoDup attorneys es : NoDup (map fst (aggregate attorneys es)).
Proof.
  induction es as [ | e es IH] using rev_ind.
  - constructor.
  - rewrite aggregate_snoc. unfold aggregate_entry.
    destruct (map_get _ _); now apply map_set_NoDup.
Qed.

Lemma sumHours_app l1 l2 : sumHours (l1 ++ l2) = sumHours l1 + sumHours l2.
Proof.
  induction l1 as [ | e l1 IH]; simpl.
  - ring.
  - rewrite IH. ring.
Qed.

Lemma sumAmount_app l1 l2 : sumAmount (l1 ++ l2) = sumAmount l1 + sumAmount l2.
Proof.
  induction l1 as [ | e l1 IH]; simpl.
  - ring.
  - rewrite IH. ring.
Qed.

Lemma entries_of_snoc k es e :
  entries_of k (es ++ [e]) =
  entries_of k es ++ (if String.eqb (BillingEntry.attorney e) k then [e] else []).
Proof. unfold entries_of. now rewrite filter_app. Qed.

(** What the first loop stores for an attorney, whatever the hours: the
    sum of the attorney's hours and the experience resolved at the
    attorney's first entry. *)
Lemma aggregate_get attorneys es k :
  match entries_of k es with
  | [] => map_get (aggregate attorneys es) k = None
  | e :: l =>
      exists d, map_get (aggregate attorneys es) k = Some d /\
                Aggregate.hours d = Fin (sumHours (e :: l)) /\
                Aggregate.yearsExperience d = yearsExp attorneys e
  end.
Proof.
  induction es as [ | e es IH] using rev_ind; [reflexivity | ].
  rewrite entries_of_snoc, aggregate_snoc.
  destruct (String.eqb_spec (BillingEntry.attorney e) k) as [Hk | Hk].
  - subst k. unfold aggregate_entry.
    destruct (entries_of (BillingEntry.attorney e) es) as [ | e0 l] eqn:El.
    + rewrite IH. rewrite map_get_set_same. eexists; split; [reflexivity | ].
      split; [ | reflexivity]. simpl. f_equal. ring.
    + destruct IH as (d & Hd & Hh & Hy). rewrite Hd, map_get_set_same.
      eexists; split; [reflexivity | ]. cbn [Aggregate.hours Aggregate.yearsExperience].
      split; [ | exact Hy]. rewrite Hh. cbn [num_add].
      change (e0 :: l ++ [e]) with ((e0 :: l) ++ [e]).
      rewrite sumHours_app. simpl. f_equal. ring.
  - rewrite app_nil_r, map_get_aggregate_entry_other by exact Hk. exact IH.
Qed.

Lemma safe_from_app attorneys m es1 es2 :
  safe_from attorneys m (es1 ++ es2) =
  safe_from attorneys m es1 &&
  safe_from attorneys (fold_left (aggregate_entry attorneys) es1 m) es2.
Proof.
  revert m. induction es1 as [ | e es1 IH]; intros m; simpl; [reflexivity | ].
  rewrite IH. now rewrite andb_assoc.
Qed.

Lemma no_zero_total_snoc attorneys es e :
  no_zero_total attorneys (es ++ [e]) = true <->
  no_zero_total attorneys es = true /\
  zero_total (aggregate attorneys es) e = false.
Proof.
  unfold no_zero_total. rewrite safe_from_app. simpl.
  rewrite andb_true_r, andb_true_iff, negb_true_iff. reflexivity.
Qed.

Lemma blended_amount l :
  (2 <= List.length l)%nat -> sumHours l <> 0 \/ (List.length l < 2)%nat ->
  blended l * sumHours l = sumAmount l.
Proof.
  intros Hlen [H | H]; [ | lia].
  destruct l as [ | e0 [ | e1 l]]; simpl in Hlen; try lia.
  unfold blended. field. exact H.
Qed.

(** What the first loop stores as the blended rate, when no update
    divides by zero. *)
Lemma aggregate_get_rate attorneys es k d :
  no_zero_total attorneys es = true ->
  map_get (aggregate attorneys es) k = Some d ->
  Aggregate.billedRate d = Fin (blended (entries_of k es)) /\
  ((2 <= List.length (entries_of k es))%nat -> sumHours (entries_of k es) <> 0).
Proof.
  revert d. induction es as [ | e es IH] using rev_ind; intros d Hsafe Hget.
  - discriminate.
  - apply no_zero_total_snoc in Hsafe. destruct Hsafe as [Hsafe Hz].
    rewrite aggregate_snoc in Hget. rewrite entries_of_snoc.
    destruct (String.eqb_spec (BillingEntry.attorney e) k) as [Hk | Hk].
    + subst k. unfold aggregate_entry in Hget. unfold zero_total in Hz.
      pose proof (aggregate_get attorneys es (BillingEntry.attorney e)) as HA.
      destruct (entries_of (BillingEntry.attorney e) es) as [ | e0 l] eqn:El.
      * rewrite HA in Hget. rewrite map_get_set_same in Hget.
        injection Hget as <-. simpl. split; [reflexivity | lia].
      * destruct HA as (d0 & Hd0 & Hh & _).
        rewrite Hd0 in Hget, Hz. rewrite map_get_set_same in Hget.
        injection Hget as <-. cbn [Aggregate.billedRate].
        destruct (IH d0 Hsafe Hd0) as [Hb Hnz].
        rewrite Hh in Hz |- *. rewrite Hb. cbn [num_add num_mul] in Hz |- *.
        assert (Hne : sumHours (e0 :: l) + BillingEntry.hours e <> 0)
          by now apply Qceqb_neq.
        assert (Htot : sumHours ((e0 :: l) ++ [e]) <> 0).
        { rewrite sumHours_app. simpl. simpl in Hne.
          intros Hc. apply Hne. rewrite <- Hc. ring. }
        split; [ | intros _; exact Htot].
        cbn [num_div]. rewrite Hz. f_equal.
        assert (Hamt : blended (e0 :: l) * sumHours (e0 :: l) = sumAmount (e0 :: l)).
        { destruct l as [ | e1 l].
          - simpl. ring.
          - apply blended_amount; [simpl; lia | left; apply Hnz; simpl; lia]. }
        rewrite Hamt.
        assert (Hbl : blended ((e0 :: l) ++ [e]) =
                      sumAmount ((e0 :: l) ++ [e]) / sumHours ((e0 :: l) ++ [e])).
        { destruct l; reflexivity. }
        rewrite Hbl, sumAmount_app, sumHours_app. simpl.
        unfold Qcdiv. f_equal; [ring | f_equal; ring].
    + rewrite app_nil_r.
      rewrite map_get_aggregate_entry_other in Hget by exact Hk. now apply IH.
Qed.

Lemma aggregate_get_hours attorneys es k d :
  map_get (aggregate attorneys es) k = Some d ->
  exists e l, entries_of k es = e :: l /\
              Aggregate.hours d = Fin (sumHours (e :: l)) /\
              Aggregate.yearsExperience d = yearsExp attorneys e.
Proof.
  intros Hget. pose proof (aggregate_get attorneys es k) as HA.
  destruct (entries_of k es) as [ | e l]; [congruence | ].
  destruct HA as (d' & Hd' & Hh & Hy).
  assert (d' = d) by congruence. subst d'. now exists e, l.
Qed.

Lemma entries_of_In k es e : In e (entries_of k es) -> In e es /\ BillingEntry.attorney e = k.
Proof.
  unfold entries_of. rewrite filter_In. intros [H1 H2].
  split; [exact H1 | now apply String.eqb_eq].
Qed.

Lemma num_sum_snoc l x : num_sum (l ++ [x]) = num_add (num_sum l) x.
Proof. rewrite num_sum_app. simpl. now rewrite num_add_0_r. Qed.

(** The billed amounts of the rows add up to the amounts of the raw
    entries, when no update divides by zero. *)
Lemma billed_total laffeyMatrix attorneys es :
  no_zero_total attorneys es = true ->
  num_sum (map Row.billedAmount (map (row_of laffeyMatrix) (aggregate attorneys es)))
  = Fin (sumAmount es).
Proof.
  rewrite map_map.
  induction es as [ | e es IH] using rev_ind; intros Hsafe; [reflexivity | ].
  apply no_zero_total_snoc in Hsafe. destruct Hsafe as [Hsafe Hz].
  specialize (IH Hsafe). rewrite aggregate_snoc, sumAmount_app.
  unfold aggregate_entry. unfold zero_total in Hz.
  destruct (map_get (aggregate attorneys es) (BillingEntry.attorney e)) as [d0 | ] eqn:Hget.
  - destruct (aggregate_get_hours _ _ _ _ Hget) as (e0 & l & _ & Hh & _).
    destruct (aggregate_get_rate _ _ _ _ Hsafe Hget) as [Hb _].
    rewrite Hh in Hz. cbn [num_add] in Hz.
    erewrite num_sum_map_set with (delta := Fin (BillingEntry.hours e * BillingEntry.rate e));
      [ | exact Hget | ].
    + rewrite IH. simpl. f_equal. ring.
    + cbn [row_of Row.billedAmount Aggregate.hours Aggregate.billedRate].
      rewrite Hh, Hb. cbn [num_add num_mul num_div]. rewrite Hz. cbn [num_mul num_add].
      f_equal. apply Qceqb_neq in Hz. field. exact Hz.
  - rewrite map_set_new by exact Hget. rewrite map_app. cbn [map].
    rewrite num_sum_snoc, IH. simpl. f_equal. ring.
Qed.



(** Strictly positive hours keep every total away from zero. *)
Lemma sumHours_pos l :
  l <> [] -> Forall (fun e => 0 < BillingEntry.hours e) l -> 0 < sumHours l.
Proof.
  intros Hne Hall. induction Hall as [ | e l He Hall IH]; [congruence | ].
  simpl. destruct l as [ | e1 l].
  - simpl. now rewrite Qcplus_0_r.
  - assert (0 < sumHours (e1 :: l)) by (apply IH; discriminate).
    apply Qclt_trans with (y := BillingEntry.hours e); [exact He | ].
    rewrite Qclt_minus_iff.
    replace (BillingEntry.hours e + sumHours (e1 :: l) + - BillingEntry.hours e)
      with (sumHours (e1 :: l)) by ring.
    assumption.
Qed.

Lemma positive_hours_safe attorneys es :
  Forall (fun e => 0 < BillingEntry.hours e) es -> no_zero_total attorneys es = true.
Proof.
  induction es as [ | e es IH] using rev_ind; intros Hall; [reflexivity | ].
  apply Forall_app in Hall. destruct Hall as [Hall He].
  apply no_zero_total_snoc. split; [now apply IH | ].
  unfold zero_total.
  destruct (map_get (aggregate attorneys es) (BillingEntry.attorney e)) as [d0 | ] eqn:Hget;
    [ | reflexivity].
  destruct (aggregate_get_hours _ _ _ _ Hget) as (e0 & l & El & Hh & _).
  rewrite Hh. cbn [num_add]. apply Qceqb_neq.
  assert (Hpos : 0 < sumHours (e0 :: l)).
  { apply sumHours_pos; [discriminate | ]. rewrite <- El.
    apply Forall_forall. intros x Hx. apply entries_of_In in Hx.
    rewrite Forall_forall in Hall. now apply Hall. }
  inversion He as [ | ? ? He' _]; subst.
  intros Hc. apply (Qclt_not_eq 0 (sumHours (e0 :: l) + BillingEntry.hours e)); [ | now symmetry].
  apply Qclt_trans with (y := sumHours (e0 :: l)); [exact Hpos | ].
  rewrite Qclt_minus_iff.
  replace (sumHours (e0 :: l) + BillingEntry.hours e + - sumHours (e0 :: l))
    with (BillingEntry.hours e) by ring.
  exact He'.
Qed.

(* ------------------------------------------------------------------ *)
(** ** Tier boundaries *)

(** C2.  For every non-negative integer number of years, the tier and
    the rate follow the five inclusive bounds in ascending order: up to 3
    junior and [tier1to3Rate], 4 to 7 mid and [tier4to7Rate], 8 to 10
    senior and [tier8to10Rate], 11 to 19 principal and [tier11to19Rate],
    20 and more veteran and [tier20PlusRate].  0 and 3 share a tier, 3
    and 4 do not, 20 and 100 are both veteran.  The code's labels are
    ["tier1to3"], ... ["tier20Plus"]; [tier_label] gives the label of
    each of the specification's tier names. *)
Theorem tier_resolution (n : Z) (laffeyMatrix : LaffeyMatrix.t) :
  (0 <= n)%Z ->
  ((n <= 3)%Z ->
     getLaffeyTier (ofZ n) = tier_label junior /\
     calculateLaffeyRate (ofZ n) laffeyMatrix = LaffeyMatrix.tier1to3Rate laffeyMatrix) /\
  ((4 <= n <= 7)%Z ->
     getLaffeyTier (ofZ n) = tier_label mid /\
     calculateLaffeyRate (ofZ n) laffeyMatrix = LaffeyMatrix.tier4to7Rate laffeyMatrix) /\
  ((8 <= n <= 10)%Z ->
     getLaffeyTier (ofZ n) = tier_label senior /\
     calculateLaffeyRate (ofZ n) laffeyMatrix = LaffeyMatrix.tier8to10Rate laffeyMatrix) /\
  ((11 <= n <= 19)%Z ->
     getLaffeyTier (ofZ n) = tier_label principal /\
     calculateLaffeyRate (ofZ n) laffeyMatrix = LaffeyMatrix.tier11to19Rate laffeyMatrix) /\
  ((20 <= n)%Z ->
     getLaffeyTier (ofZ n) = tier_label veteran /\
     calculateLaffeyRate (ofZ n) laffeyMatrix = LaffeyMatrix.tier20PlusRate laffeyMatrix) /\
  getLaffeyTier (ofZ 0) = getLaffeyTier (ofZ 3) /\
  getLaffeyTier (ofZ 3) <> getLaffeyTier (ofZ 4) /\
  getLaffeyTier (ofZ 20) = tier_label veteran /\
  getLaffeyTier (ofZ 100) = tier_label veteran.
Proof.
  intros Hn. unfold getLaffeyTier, calculateLaffeyRate. rewrite !Qcleb_ofZ.
  repeat split; try (intros H);
    repeat match goal with
      | |- context [(?a <=? ?b)%Z] => destruct (Z.leb_spec a b); try lia
      end;
    try reflexivity; try discriminate.
Qed.

Lemma tier_resolution_witness :
  (0 <= 5)%Z /\
  getLaffeyTier (ofZ 5) = tier_label mid /\
  calculateLaffeyRate (ofZ 5) matrix2024 = Some (ofZ 492).
Proof.
  split; [lia | ].
  apply (tier_resolution 5 matrix2024); lia.
Defined.

(* ------------------------------------------------------------------ *)
(** ** Empty input *)

(** C9.  On an empty entry list the calculation raises nothing and
    returns zero totals, a zero difference, a true flag and an empty
    per-attorney breakdown. *)
Theorem empty_input (laffeyMatrix : LaffeyMatrix.t) (attorneys : option (list Attorney.t)) :
  run_calculateLaffeyComparison [] laffeyMatrix attorneys =
  Returns (LaffeyComparisonResult.mk (Fin 0) (Fin 0) (Fin 0) true []).
Proof.
  unfold run_calculateLaffeyComparison, calculateLaffeyComparison. simpl.
  unfold num_sub. simpl. reflexivity.
Qed.

(* ------------------------------------------------------------------ *)
(** ** Resolution of the years of experience *)

(** Away from zero the [||] chain is the three-step precedence: when
    neither the entry's own value nor the roster's value for that name is
    0, [yearsExp] is the specification's resolution with default 5. *)
Lemma yearsExp_precedence attorneys e :
  BillingEntry.yearsExperience e <> Some 0 ->
  rosterYears attorneys (BillingEntry.attorney e) <> Some 0 ->
  yearsExp attorneys e = resolveYearsExperience attorneys e (ofZ 5).
Proof.
  unfold yearsExp, resolveYearsExperience, js_or, rosterYears, truthy.
  intros He Hr.
  destruct (BillingEntry.yearsExperience e) as [y | ].
  - destruct (Qceqb y 0) eqn:Ey.
    + apply Qceqb_eq in Ey. congruence.
    + simpl. rewrite ?Ey. reflexivity.
  - simpl. destruct attorneys as [l | ]; [ | reflexivity].
    destruct (find _ l) as [a | ]; [ | reflexivity].
    destruct (Qceqb (Attorney.yearsExperience a) 0) eqn:Ey.
    + apply Qceqb_eq in Ey. congruence.
    + reflexivity.
Qed.

(** C4.  An entry that carries [yearsExperience: 0] does not keep it:
    [0] is falsy for [||], so the roster's value is taken, or 5 without a
    roster, and the benchmark is the rate of that other tier.  A roster
    value of 0 is passed over in the same way.  The three-step precedence
    of the specification gives 0 in each case. *)
Theorem yearsExp_drops_zero :
  let e := entry "A" 10 300 (Some 0%Z) in
  let e' := entry "A" 10 300 None in
  let roster := Some [Attorney.mk "A" (ofZ 12) false] in
  let roster0 := Some [Attorney.mk "A" (ofZ 0) false] in
  BillingEntry.yearsExperience e = Some (ofZ 0) /\
  resolveYearsExperience None e (ofZ 5) = ofZ 0 /\
  yearsExp None e = ofZ 5 /\
  resolveYearsExperience roster e (ofZ 5) = ofZ 0 /\
  yearsExp roster e = ofZ 12 /\
  resolveYearsExperience roster0 e' (ofZ 5) = ofZ 0 /\
  yearsExp roster0 e' = ofZ 5 /\
  map Row.laffeyRate
      (LaffeyComparisonResult.byAttorney (calculateLaffeyComparison [e] matrix2024 None))
  = [LaffeyMatrix.tier4to7Rate matrix2024].
Proof. repeat split. Qed.

(* ------------------------------------------------------------------ *)
(** ** Entries of zero hours *)

(** On a total of hours that is not zero, an entry of zero hours is a
    no-op for the attorney's aggregate. *)
Lemma zero_hours_noop attorneys m e (H b : Qc) y :
  map_get m (BillingEntry.attorney e) = Some (Aggregate.mk (Fin H) (Fin b) y) ->
  BillingEntry.hours e = 0 ->
  H <> 0 ->
  map_get (aggregate_entry attorneys m e) (BillingEntry.attorney e) =
  Some (Aggregate.mk (Fin H) (Fin b) y).
Proof.
  intros Hget Hz Hnz. unfold aggregate_entry. rewrite Hget, map_get_set_same.
  cbn [Aggregate.hours Aggregate.billedRate Aggregate.yearsExperience].
  rewrite Hz. cbn [num_add num_mul].
  assert (E : H + 0 = H) by ring. rewrite E.
  apply Qceqb_neq in Hnz. cbn [num_div]. rewrite Hnz.
  do 3 f_equal. apply Qceqb_neq in Hnz. field. exact Hnz.
Qed.

(** C5.  An entry of zero hours for an attorney whose accumulated hours
    are zero divides 0 by 0: the blended rate, 100 before, is [NaN]
    after. *)
Theorem zero_hours_on_zero_total :
  let e := entry "A" 0 100 None in
  let before := aggregate None [e] in
  let after := aggregate_entry None before e in
  map_get before "A" = Some (Aggregate.mk (Fin 0) (Fin (ofZ 100)) (ofZ 5)) /\
  BillingEntry.hours e = 0 /\
  zero_total before e = true /\
  map_get after "A" = Some (Aggregate.mk (Fin 0) NaN (ofZ 5)).
Proof. repeat split. Qed.

(* ------------------------------------------------------------------ *)
(** ** Billed total *)

(** When no update divides by zero, [totalBilled] is the direct sum of
    hours times rate over the raw entries: nothing is lost or counted
    twice. *)
Lemma totalBilled_direct_sum es laffeyMatrix attorneys :
  no_zero_total attorneys es = true ->
  LaffeyComparisonResult.totalBilled (calculateLaffeyComparison es laffeyMatrix attorneys)
  = Fin (sumAmount es).
Proof.
  intros Hsafe. rewrite calculateLaffeyComparison_eq.
  cbn [LaffeyComparisonResult.totalBilled]. now apply billed_total.
Qed.

Lemma totalBilled_positive_hours es laffeyMatrix attorneys :
  Forall (fun e => 0 < BillingEntry.hours e) es ->
  LaffeyComparisonResult.totalBilled (calculateLaffeyComparison es laffeyMatrix attorneys)
  = Fin (sumAmount es).
Proof. intros H. now apply totalBilled_direct_sum, positive_hours_safe. Qed.

(** The worked scenario of the specification: 10 hours at 500 and 5
    hours at 600 for an attorney of 9 years, against a senior rate of
    585. *)
Example scenario_blended :
  calculateLaffeyComparison
    [entry "A" 10 500 (Some 9%Z); entry "A" 5 600 (Some 9%Z)] matrix2024 None
  = LaffeyComparisonResult.mk
      (Fin (ofZ 8000)) (Fin (ofZ 8775)) (Fin (ofZ 775)) true
      [Row.mk "A" (Fin (ofZ 15)) (Fin (Q2Qc (1600 # 3))) (Some (ofZ 585))
              (Fin (ofZ 8000)) (Fin (ofZ 8775))].
Proof. qc_eq. Qed.

(** C1.  Two entries of zero hours for one attorney: the list is not
    empty, no hours are negative and the direct sum of hours times rate
    is 0, yet [totalBilled] is [NaN]. *)
Theorem totalBilled_zero_hours :
  let es := [entry "A" 0 100 None; entry "A" 0 100 None] in
  es <> [] /\
  Forall (fun e => 0 <= BillingEntry.hours e) es /\
  sumAmount es = 0 /\
  LaffeyComparisonResult.totalBilled (calculateLaffeyComparison es matrix2024 None) = NaN.
Proof.
  repeat split; try discriminate.
  repeat constructor; discriminate.
Qed.

(* ------------------------------------------------------------------ *)
(** ** Rows of the breakdown *)

Lemma byAttorney_rows es laffeyMatrix attorneys :
  LaffeyComparisonResult.byAttorney (calculateLaffeyComparison es laffeyMatrix attorneys)
  = map (row_of laffeyMatrix) (aggregate attorneys es).
Proof. now rewrite calculateLaffeyComparison_eq. Qed.

(** Every row comes from the binding of its attorney in the map. *)
Lemma row_binding es laffeyMatrix attorneys row :
  In row (LaffeyComparisonResult.byAttorney
            (calculateLaffeyComparison es laffeyMatrix attorneys)) ->
  exists d, map_get (aggregate attorneys es) (Row.attorney row) = Some d /\
            row = row_of laffeyMatrix (Row.attorney row, d).
Proof.
  rewrite byAttorney_rows, in_map_iff. intros ([k d] & Hrow & Hin).
  subst row. cbn [row_of Row.attorney]. exists d. split; [ | reflexivity].
  apply In_map_get; [apply aggregate_NoDup | exact Hin].
Qed.

Lemma binding_row es laffeyMatrix attorneys k d :
  map_get (aggregate attorneys es) k = Some d ->
  In (row_of laffeyMatrix (k, d))
     (LaffeyComparisonResult.byAttorney
        (calculateLaffeyComparison es laffeyMatrix attorneys)).
Proof.
  intros Hget. rewrite byAttorney_rows. apply in_map. now apply map_get_In.
Qed.

Lemma num_sum_fin (l : list number) :
  Forall (fun x => exists q, x = Fin q) l -> exists t, num_sum l = Fin t.
Proof.
  induction 1 as [ | x l [q ->] _ [t IH]]; simpl.
  - now exists 0.
  - rewrite IH. simpl. now eexists.
Qed.

(* ------------------------------------------------------------------ *)
(** ** Difference and flag *)

(** In every comparison result the difference is the benchmark total
    minus the billed total, and the flag is true exactly when the billed
    total is at most the benchmark total, equality included.  When the
    blended rate of every row of the result is the benchmark rate of the
    row, the difference is 0 and the flag is true. *)
Theorem difference_and_flag es laffeyMatrix attorneys :
  let r := calculateLaffeyComparison es laffeyMatrix attorneys in
  LaffeyComparisonResult.difference r =
    num_sub (LaffeyComparisonResult.totalLaffey r) (LaffeyComparisonResult.totalBilled r) /\
  (LaffeyComparisonResult.isUnderLaffey r = true <->
     num_le (LaffeyComparisonResult.totalBilled r) (LaffeyComparisonResult.totalLaffey r)) /\
  (forall t, LaffeyComparisonResult.totalBilled r = Fin t ->
             LaffeyComparisonResult.totalLaffey r = Fin t ->
             LaffeyComparisonResult.isUnderLaffey r = true) /\
  (Forall at_benchmark (LaffeyComparisonResult.byAttorney r) ->
     LaffeyComparisonResult.difference r = Fin 0 /\
     LaffeyComparisonResult.isUnderLaffey r = true).
Proof.
  intros r. split; [reflexivity | ]. split; [apply num_leb_le | ].
  split.
  { intros t Hb Hl.
    change (num_leb (LaffeyComparisonResult.totalBilled r)
                    (LaffeyComparisonResult.totalLaffey r) = true).
    rewrite Hb, Hl. apply Qcleb_le, Qcle_refl. }
  intros Hall.
  assert (Hrows : forall row, In row (LaffeyComparisonResult.byAttorney r) ->
            Row.laffeyAmount row = Row.billedAmount row /\
            exists q, Row.billedAmount row = Fin q).
  { intros row Hin. rewrite Forall_forall in Hall. specialize (Hall row Hin).
    apply row_binding in Hin. destruct Hin as (d & Hget & Hrow).
    destruct (aggregate_get_hours _ _ _ _ Hget) as (e & l & _ & Hh & _).
    unfold at_benchmark in Hall. rewrite Hrow in Hall |- *.
    cbn [row_of Row.laffeyRate Row.billedRate Row.laffeyAmount Row.billedAmount] in Hall |- *.
    rewrite Hh.
    destruct (calculateLaffeyRate (Aggregate.yearsExperience d) laffeyMatrix) as [q | ];
      [ | contradiction].
    destruct (Aggregate.billedRate d) as [b | | | ]; try contradiction.
    subst b. simpl. split; [reflexivity | now eexists]. }
  subst r. rewrite calculateLaffeyComparison_eq in Hrows |- *.
  cbn [LaffeyComparisonResult.byAttorney LaffeyComparisonResult.difference
       LaffeyComparisonResult.isUnderLaffey] in Hrows |- *.
  set (rows := map (row_of laffeyMatrix) (aggregate attorneys es)) in *.
  assert (Hmap : map Row.laffeyAmount rows = map Row.billedAmount rows).
  { apply map_ext_in. intros row Hin. now apply Hrows. }
  rewrite Hmap.
  destruct (num_sum_fin (map Row.billedAmount rows)) as [t Ht].
  { apply Forall_forall. intros x Hx. apply in_map_iff in Hx.
    destruct Hx as (row & <- & Hin). now apply Hrows. }
  rewrite Ht. unfold num_sub. simpl. split.
  - f_equal. ring.
  - apply Qcleb_le, Qcle_refl.
Qed.

(** The scenario of the specification: a junior (3 years) and a veteran
    (22 years), 10 hours each at the benchmark rate of the tier. *)
Lemma difference_and_flag_witness :
  let r := calculateLaffeyComparison
             [entry "J" 10 402 (Some 3%Z); entry "V" 10 822 (Some 22%Z)]
             matrix2024 None in
  Forall at_benchmark (LaffeyComparisonResult.byAttorney r) /\
  LaffeyComparisonResult.difference r = Fin 0 /\
  LaffeyComparisonResult.isUnderLaffey r = true.
Proof.
  intros r.
  assert (H : Forall at_benchmark (LaffeyComparisonResult.byAttorney r)).
  { repeat constructor. }
  split; [exact H | ].
  apply (difference_and_flag
           [entry "J" 10 402 (Some 3%Z); entry "V" 10 822 (Some 22%Z)]
           matrix2024 None).
  exact H.
Defined.

Lemma sumAmount_same_rate (r : Qc) (l : list BillingEntry.t) :
  Forall (fun e => BillingEntry.rate e = r) l -> sumAmount l = r * sumHours l.
Proof.
  induction 1 as [ | e l He _ IH]; simpl.
  - ring.
  - rewrite IH, He. ring.
Qed.

(** The premise read on the entries.  When every entry is billed at the
    benchmark rate of its attorney and no update of the running average
    divides by a zero total of hours, every row is at its benchmark: the
    difference is 0 and the flag is true. *)
Lemma benchmark_rate_entries es laffeyMatrix attorneys :
  Forall (bills_at_benchmark attorneys laffeyMatrix es) es ->
  no_zero_total attorneys es = true ->
  let r := calculateLaffeyComparison es laffeyMatrix attorneys in
  Forall at_benchmark (LaffeyComparisonResult.byAttorney r) /\
  LaffeyComparisonResult.difference r = Fin 0 /\
  LaffeyComparisonResult.isUnderLaffey r = true.
Proof.
  intros Hall Hsafe r.
  assert (Hrows : Forall at_benchmark (LaffeyComparisonResult.byAttorney r)).
  { apply Forall_forall. intros row Hin.
    apply row_binding in Hin. destruct Hin as (d & Hget & Hrow).
    destruct (aggregate_get_hours _ _ _ _ Hget) as (e & l & El & _ & Hy).
    destruct (aggregate_get_rate _ _ _ _ Hsafe Hget) as [Hb Hnz].
    rewrite El in Hb, Hnz.
    assert (Hrate : forall x, In x (e :: l) ->
              calculateLaffeyRate (yearsExp attorneys e) laffeyMatrix
              = Some (BillingEntry.rate x)).
    { intros x Hx. rewrite <- El in Hx. apply entries_of_In in Hx.
      destruct Hx as [Hx Hk]. rewrite Forall_forall in Hall.
      specialize (Hall x Hx). unfold bills_at_benchmark, attorneyRate in Hall.
      now rewrite Hk, El in Hall. }
    rewrite Hrow. unfold at_benchmark. cbn [row_of Row.laffeyRate Row.billedRate].
    rewrite Hy, Hb, (Hrate e (or_introl eq_refl)).
    destruct l as [ | e1 l]; [reflexivity | ].
    assert (Hsame : Forall (fun x => BillingEntry.rate x = BillingEntry.rate e)
                           (e :: e1 :: l)).
    { apply Forall_forall. intros x Hx.
      pose proof (Hrate x Hx) as H1. pose proof (Hrate e (or_introl eq_refl)) as H2.
      congruence. }
    unfold blended. rewrite (sumAmount_same_rate _ _ Hsame).
    field. apply Hnz. simpl. lia. }
  split; [exact Hrows | ].
  now apply (difference_and_flag es laffeyMatrix attorneys).
Qed.

(** C3.  Two entries of zero hours for one attorney of 2 years, both
    billed at 402, the benchmark rate of the tier: every entry bills
    exactly at the benchmark rate, the benchmark total is 0, yet the
    second update divides 0 by 0, so that the billed total and the
    difference are [NaN] and the flag is false, where the specification
    gives a difference of 0 and a true flag. *)
Theorem benchmark_rate_zero_hours :
  let es := [entry "A" 0 402 (Some 2%Z); entry "A" 0 402 (Some 2%Z)] in
  let r := calculateLaffeyComparison es matrix2024 None in
  Forall (bills_at_benchmark None matrix2024 es) es /\
  no_zero_total None es = false /\
  LaffeyComparisonResult.totalBilled r = NaN /\
  LaffeyComparisonResult.totalLaffey r = Fin 0 /\
  LaffeyComparisonResult.difference r = NaN /\
  LaffeyComparisonResult.isUnderLaffey r = false.
Proof.
  intros es r. split.
  - repeat constructor.
  - repeat split.
Qed.

(** The scenario of the specification, a junior (3 years) and a veteran
    (22 years) with 10 hours each at the benchmark rate of the tier, read
    on the entries. *)
Example benchmark_rate_scenario :
  let es := [entry "J" 10 402 (Some 3%Z); entry "V" 10 822 (Some 22%Z)] in
  let r := calculateLaffeyComparison es matrix2024 None in
  Forall (bills_at_benchmark None matrix2024 es) es /\
  no_zero_total None es = true /\
  LaffeyComparisonResult.difference r = Fin 0 /\
  LaffeyComparisonResult.isUnderLaffey r = true.
Proof.
  intros es r.
  assert (H1 : Forall (bills_at_benchmark None matrix2024 es) es) by (repeat constructor).
  assert (H2 : no_zero_total None es = true) by reflexivity.
  exact (conj H1 (conj H2 (proj2 (benchmark_rate_entries es matrix2024 None H1 H2)))).
Qed.

(* ------------------------------------------------------------------ *)
(** ** The experience behind the benchmark *)

(** C10.  The row of an attorney carries the benchmark rate of the
    experience resolved at the attorney's first entry in the list: the
    stored experience, the tier and the rate are those of that entry,
    whatever the later entries of the attorney carry. *)
Theorem benchmark_from_first_entry es laffeyMatrix attorneys row :
  In row (LaffeyComparisonResult.byAttorney
            (calculateLaffeyComparison es laffeyMatrix attorneys)) ->
  exists first later d,
    entries_of (Row.attorney row) es = first :: later /\
    map_get (aggregate attorneys es) (Row.attorney row) = Some d /\
    Aggregate.yearsExperience d = yearsExp attorneys first /\
    getLaffeyTier (Aggregate.yearsExperience d) = getLaffeyTier (yearsExp attorneys first) /\
    Row.laffeyRate row = calculateLaffeyRate (yearsExp attorneys first) laffeyMatrix.
Proof.
  intros Hin. apply row_binding in Hin. destruct Hin as (d & Hget & Hrow).
  destruct (aggregate_get_hours _ _ _ _ Hget) as (e & l & El & _ & Hy).
  exists e, l, d. repeat split; try assumption.
  - now rewrite Hy.
  - rewrite Hrow. cbn [row_of Row.laffeyRate]. now rewrite Hy.
Qed.

Lemma benchmark_from_first_entry_witness :
  let es := [entry "A" 2 400 (Some 2%Z); entry "B" 1 500 None; entry "A" 3 400 (Some 25%Z)] in
  let row := Row.mk "A" (Fin (ofZ 5)) (Fin (ofZ 400)) (Some (ofZ 402))
                    (Fin (ofZ 2000)) (Fin (ofZ 2010)) in
  In row (LaffeyComparisonResult.byAttorney (calculateLaffeyComparison es matrix2024 None)) /\
  exists first later d,
    entries_of "A" es = first :: later /\
    map_get (aggregate None es) "A" = Some d /\
    Aggregate.yearsExperience d = yearsExp None first /\
    getLaffeyTier (Aggregate.yearsExperience d) = getLaffeyTier (yearsExp None first) /\
    Row.laffeyRate row = calculateLaffeyRate (yearsExp None first) matrix2024.
Proof.
  intros es row.
  assert (H : In row (LaffeyComparisonResult.byAttorney
                        (calculateLaffeyComparison es matrix2024 None))).
  { left. unfold row. qc_eq. }
  split; [exact H | ].
  exact (benchmark_from_first_entry es matrix2024 None row H).
Defined.

(* ------------------------------------------------------------------ *)
(** ** Inputs the specification rejects *)





(* ------------------------------------------------------------------ *)
(** ** A schedule with a missing rate *)

(** C7, as stated, fails: with the rate of the resolved tier missing,
    rate resolution gives [undefined] and the comparison returns a
    record; nothing is raised. *)
Lemma missing_rate_returns :
  let es := [entry "A" 10 300 (Some 5%Z)] in
  LaffeyMatrix.tier4to7Rate matrixNoMid = None /\
  calculateLaffeyRate (ofZ 5) matrixNoMid = None /\
  run_calculateLaffeyComparison es matrixNoMid None <> Throws IncompleteSchedule /\
  exists r, run_calculateLaffeyComparison es matrixNoMid None = Returns r.
Proof.
  repeat split; try discriminate. now eexists.
Qed.

(** C7, amended.  When the rate of an attorney's resolved tier is
    missing from the schedule, nothing is raised and no rate is put in
    its place: the call returns a comparison in which the attorney keeps
    a row, with no benchmark rate and a [NaN] benchmark amount, and in
    which the benchmark total and the difference are [NaN] and the flag
    is false. *)
Theorem missing_rate_is_NaN es laffeyMatrix attorneys k d :
  map_get (aggregate attorneys es) k = Some d ->
  calculateLaffeyRate (Aggregate.yearsExperience d) laffeyMatrix = None ->
  let r := calculateLaffeyComparison es laffeyMatrix attorneys in
  run_calculateLaffeyComparison es laffeyMatrix attorneys = Returns r /\
  (exists row, In row (LaffeyComparisonResult.byAttorney r) /\
               Row.attorney row = k /\
               Row.laffeyRate row = None /\
               Row.laffeyAmount row = NaN) /\
  LaffeyComparisonResult.totalLaffey r = NaN /\
  LaffeyComparisonResult.difference r = NaN /\
  LaffeyComparisonResult.isUnderLaffey r = false.
Proof.
  intros Hget Hrate r. split; [reflexivity | ].
  pose proof (binding_row es laffeyMatrix attorneys k d Hget) as Hin.
  assert (Hamt : Row.laffeyAmount (row_of laffeyMatrix (k, d)) = NaN).
  { cbn [row_of Row.laffeyAmount]. rewrite Hrate. apply num_mul_NaN_r. }
  split.
  { exists (row_of laffeyMatrix (k, d)). repeat split; assumption. }
  assert (Htot : LaffeyComparisonResult.totalLaffey r = NaN).
  { subst r. rewrite calculateLaffeyComparison_eq.
    cbn [LaffeyComparisonResult.totalLaffey].
    apply num_sum_NaN. rewrite <- Hamt. apply in_map.
    now rewrite <- byAttorney_rows. }
  split; [exact Htot | ].
  change (LaffeyComparisonResult.difference r)
    with (num_sub (LaffeyComparisonResult.totalLaffey r) (LaffeyComparisonResult.totalBilled r)).
  change (LaffeyComparisonResult.isUnderLaffey r)
    with (num_leb (LaffeyComparisonResult.totalBilled r) (LaffeyComparisonResult.totalLaffey r)).
  rewrite Htot. split; [ | apply num_leb_NaN_r].
  unfold num_sub. now destruct (num_opp (LaffeyComparisonResult.totalBilled r)).
Qed.

Lemma missing_rate_is_NaN_witness :
  let es := [entry "A" 10 300 (Some 5%Z); entry "B" 2 500 (Some 9%Z)] in
  let d := Aggregate.mk (Fin (ofZ 10)) (Fin (ofZ 300)) (ofZ 5) in
  map_get (aggregate None es) "A" = Some d /\
  calculateLaffeyRate (Aggregate.yearsExperience d) matrixNoMid = None /\
  LaffeyComparisonResult.totalLaffey (calculateLaffeyComparison es matrixNoMid None) = NaN /\
  LaffeyComparisonResult.isUnderLaffey (calculateLaffeyComparison es matrixNoMid None) = false.
Proof.
  intros es d.
  assert (H1 : map_get (aggregate None es) "A" = Some d) by reflexivity.
  assert (H2 : calculateLaffeyRate (Aggregate.yearsExperience d) matrixNoMid = None)
    by reflexivity.
  split; [exact H1 | ]. split; [exact H2 | ].
  destruct (missing_rate_is_NaN es matrixNoMid None "A" d H1 H2) as (_ & _ & H3 & _ & H5).
  split; [exact H3 | exact H5].
Defined.

(* ------------------------------------------------------------------ *)
(** ** Order of the entries *)







(** The zero total of hours is the other way for the order to show: the
    same three entries of one attorney leave a blended rate and a billed
    total of [NaN] when the two entries of zero hours come first, and of
    100 and 500 when they come last. *)
Lemma order_changes_zero_total :
  let es := [entry "A" 0 100 None; entry "A" 0 100 None; entry "A" 5 100 None] in
  let es' := [entry "A" 5 100 None; entry "A" 0 100 None; entry "A" 0 100 None] in
  Permutation es es' /\
  no_zero_total None es = false /\
  no_zero_total None es' = true /\
  stored None es "A" = Some (Fin (ofZ 5), NaN) /\
  stored None es' "A" = Some (Fin (ofZ 5), Fin (ofZ 100)) /\
  LaffeyComparisonResult.totalBilled (calculateLaffeyComparison es matrix2024 None) = NaN /\
  LaffeyComparisonResult.totalBilled (calculateLaffeyComparison es' matrix2024 None)
  = Fin (ofZ 500).
Proof.
  intros es es'. split.
  - unfold es, es'.
    eapply perm_trans; [apply perm_skip, perm_swap | apply perm_swap].
  - repeat split; unfold stored; simpl; repeat f_equal; qc_eq.
Qed.



(* ------------------------------------------------------------------ *)
(** ** Tiers and rates, beyond the integer boundaries *)

(** Order facts on canonical rationals, through the fractions. *)
Ltac qc_order :=
  unfold Qcle, Qclt, Qcminus, Qcplus, Qcopp, ofZ in *; cbn [this Q2Qc] in *;
  repeat rewrite Qred_correct in *; lra.

Lemma Qcleb_false (a b : Qc) : Qcleb a b = false <-> b < a.
Proof.
  split; intros H.
  - apply Qcnot_le_lt. intros Hc. apply Qcleb_le in Hc. congruence.
  - destruct (Qcleb a b) eqn:E; [ | reflexivity].
    apply Qcleb_le in E. exfalso. now apply (Qclt_not_le _ _ H).
Qed.

(** X1.  The label and the rate come from two copies of the same chain of
    tests; they never disagree: the rate returned is the schedule field
    that the label names. *)
Theorem rate_matches_tier (y : Qc) (laffeyMatrix : LaffeyMatrix.t) :
  calculateLaffeyRate y laffeyMatrix = rateOfLabel laffeyMatrix (getLaffeyTier y).
Proof.
  unfold calculateLaffeyRate, getLaffeyTier.
  destruct (Qcleb y (ofZ 3)); [reflexivity | ].
  destruct (Qcleb y (ofZ 7)); [reflexivity | ].
  destruct (Qcleb y (ofZ 10)); [reflexivity | ].
  destruct (Qcleb y (ofZ 19)); reflexivity.
Qed.

(** X2.  On a schedule whose rates do not decrease from tier to tier, more
    experience never lowers the benchmark rate; this holds for every
    rational number of years, negative and fractional ones included. *)
Theorem rate_monotone (y1 y2 : Qc) (laffeyMatrix : LaffeyMatrix.t) :
  ascending laffeyMatrix ->
  y1 <= y2 ->
  exists a b,
    calculateLaffeyRate y1 laffeyMatrix = Some a /\
    calculateLaffeyRate y2 laffeyMatrix = Some b /\
    a <= b.
Proof.
  intros (r1 & r2 & r3 & r4 & r5 & E1 & E2 & E3 & E4 & E5 & H12 & H23 & H34 & H45) Hy.
  unfold calculateLaffeyRate. rewrite E1, E2, E3, E4, E5.
  destruct (Qcleb y1 (ofZ 3)) eqn:A3; destruct (Qcleb y1 (ofZ 7)) eqn:A7;
    destruct (Qcleb y1 (ofZ 10)) eqn:A10; destruct (Qcleb y1 (ofZ 19)) eqn:A19;
    destruct (Qcleb y2 (ofZ 3)) eqn:B3; destruct (Qcleb y2 (ofZ 7)) eqn:B7;
    destruct (Qcleb y2 (ofZ 10)) eqn:B10; destruct (Qcleb y2 (ofZ 19)) eqn:B19;
    rewrite ?Qcleb_le, ?Qcleb_false in *;
    try (exfalso; qc_order);
    (do 2 eexists; split; [reflexivity | split; [reflexivity | ] ]);
    qc_order.
Qed.

Lemma rate_monotone_witness :
  ascending matrix2024 /\
  ofZ 6 <= ofZ 11 /\
  exists a b,
    calculateLaffeyRate (ofZ 6) matrix2024 = Some a /\
    calculateLaffeyRate (ofZ 11) matrix2024 = Some b /\
    a <= b.
Proof.
  assert (H : ascending matrix2024).
  { exists (ofZ 402), (ofZ 492), (ofZ 585), (ofZ 680), (ofZ 822).
    repeat split; discriminate. }
  assert (Hy : ofZ 6 <= ofZ 11) by discriminate.
  exact (conj H (conj Hy (rate_monotone (ofZ 6) (ofZ 11) matrix2024 H Hy))).
Defined.

(* ------------------------------------------------------------------ *)
(** ** Shape of the breakdown *)

Lemma firstKeys_snoc ks k :
  firstKeys (ks ++ [k]) =
  if existsb (String.eqb k) (firstKeys ks) then firstKeys ks else firstKeys ks ++ [k].
Proof. unfold firstKeys. now rewrite fold_left_app. Qed.

Lemma map_get_existsb (m : AttorneyMap) k :
  existsb (String.eqb k) (map fst m) =
  match map_get m k with Some _ => true | None => false end.
Proof.
  induction m as [ | [k' v] m IH]; simpl; [reflexivity | ].
  rewrite (String.eqb_sym k k'). destruct (String.eqb k' k); [reflexivity | exact IH].
Qed.

Lemma aggregate_keys attorneys es :
  map fst (aggregate attorneys es) = firstKeys (map BillingEntry.attorney es).
Proof.
  induction es as [ | e es IH] using rev_ind; [reflexivity | ].
  rewrite aggregate_snoc, map_app. cbn [map]. rewrite firstKeys_snoc, <- IH.
  rewrite map_get_existsb. unfold aggregate_entry.
  destruct (map_get (aggregate attorneys es) (BillingEntry.attorney e)) eqn:E;
    rewrite map_set_keys, E; reflexivity.
Qed.

Lemma row_of_attorney laffeyMatrix (m : AttorneyMap) :
  map Row.attorney (map (row_of laffeyMatrix) m) = map fst m.
Proof.
  rewrite map_map. apply map_ext. now intros [k d].
Qed.

(** X3.  The breakdown lists every attorney of the input once, in the order
    of first appearance among the entries. *)
Theorem breakdown_order es laffeyMatrix attorneys :
  let rows := LaffeyComparisonResult.byAttorney
                (calculateLaffeyComparison es laffeyMatrix attorneys) in
  map Row.attorney rows = firstKeys (map BillingEntry.attorney es) /\
  NoDup (map Row.attorney rows) /\
  (forall k, In k (map Row.attorney rows) <-> In k (map BillingEntry.attorney es)).
Proof.
  intros rows. subst rows. rewrite byAttorney_rows, row_of_attorney.
  split; [apply aggregate_keys | ]. split; [apply aggregate_NoDup | ].
  intros k. pose proof (aggregate_get attorneys es k) as HA. split.
  - intros Hin. destruct (entries_of k es) as [ | e l] eqn:El.
    + apply map_get_None in HA. contradiction.
    + assert (He : In e (entries_of k es)) by (rewrite El; now left).
      apply entries_of_In in He. destruct He as [He <-]. now apply in_map.
  - intros Hin. apply in_map_iff in Hin. destruct Hin as (e & <- & He).
    assert (He' : In e (entries_of (BillingEntry.attorney e) es)).
    { unfold entries_of. apply filter_In. split; [exact He | apply String.eqb_refl]. }
    destruct (entries_of (BillingEntry.attorney e) es) as [ | e0 l]; [contradiction | ].
    destruct HA as (d & Hd & _). apply map_get_In in Hd.
    change (BillingEntry.attorney e) with (fst (BillingEntry.attorney e, d)).
    now apply in_map.
Qed.

(** The new binding of the entry's attorney depends on the map only
    through the old binding of that attorney. *)
Lemma aggregate_entry_own attorneys (m m' : AttorneyMap) e :
  map_get m (BillingEntry.attorney e) = map_get m' (BillingEntry.attorney e) ->
  map_get (aggregate_entry attorneys m e) (BillingEntry.attorney e) =
  map_get (aggregate_entry attorneys m' e) (BillingEntry.attorney e).
Proof.
  intros H. unfold aggregate_entry. rewrite H.
  destruct (map_get m' (BillingEntry.attorney e)); now rewrite !map_get_set_same.
Qed.

(** The binding of an attorney after the loop is the one the loop leaves
    when it runs over the entries of that attorney alone. *)
Lemma aggregate_from_own attorneys es (m m' : AttorneyMap) k :
  map_get m k = map_get m' k ->
  map_get (fold_left (aggregate_entry attorneys) es m) k =
  map_get (fold_left (aggregate_entry attorneys) (entries_of k es) m') k.
Proof.
  revert m m'. induction es as [ | e es IH]; intros m m' H; [exact H | ].
  unfold entries_of. cbn [fold_left filter]. fold (entries_of k es).
  destruct (String.eqb_spec (BillingEntry.attorney e) k) as [Hk | Hk].
  - cbn [fold_left]. apply IH. subst k. now apply aggregate_entry_own.
  - apply IH. now rewrite map_get_aggregate_entry_other.
Qed.

Lemma firstKeys_same (k : string) (ks : list string) :
  Forall (eq k) ks -> firstKeys (k :: ks) = [k].
Proof.
  unfold firstKeys. cbn [fold_left existsb app].
  induction 1 as [ | k' ks <- _ IH]; [reflexivity | ].
  cbn [fold_left existsb]. now rewrite String.eqb_refl.
Qed.

Lemma single_binding (m : AttorneyMap) k d :
  map fst m = [k] -> map_get m k = Some d -> m = [(k, d)].
Proof.
  destruct m as [ | [k' v] [ | b m]]; try discriminate.
  simpl. intros [= ->]. rewrite String.eqb_refl. now intros [= ->].
Qed.

(** X4.  The row of an attorney is the row a comparison of that attorney's
    entries alone would give: the entries of the other attorneys, and
    where they stand in the list, change nothing in it. *)
Theorem row_from_own_entries es laffeyMatrix attorneys row :
  In row (LaffeyComparisonResult.byAttorney
            (calculateLaffeyComparison es laffeyMatrix attorneys)) ->
  LaffeyComparisonResult.byAttorney
    (calculateLaffeyComparison (entries_of (Row.attorney row) es) laffeyMatrix attorneys)
  = [row].
Proof.
  intros Hin. apply row_binding in Hin. destruct Hin as (d & Hget & Hrow).
  set (k := Row.attorney row) in *.
  destruct (aggregate_get_hours _ _ _ _ Hget) as (e & l & El & _).
  assert (Hown : map_get (aggregate attorneys (entries_of k es)) k = Some d).
  { rewrite <- Hget. symmetry. now apply aggregate_from_own. }
  assert (Hkeys : map fst (aggregate attorneys (entries_of k es)) = [k]).
  { rewrite aggregate_keys, El.
    assert (Hall : Forall (fun x => BillingEntry.attorney x = k) (e :: l)).
    { apply Forall_forall. intros x Hx. rewrite <- El in Hx.
      now apply entries_of_In in Hx. }
    apply Forall_cons_iff in Hall. destruct Hall as [He Hl]. cbn [map]. rewrite He.
    apply firstKeys_same. apply Forall_map.
    apply Forall_forall. intros x Hx. rewrite Forall_forall in Hl.
    symmetry. now apply Hl. }
  rewrite byAttorney_rows, (single_binding _ _ _ Hkeys Hown).
  cbn [map]. now rewrite Hrow.
Qed.

Lemma row_from_own_entries_witness :
  let es := [entry "A" 10 500 (Some 9%Z); entry "B" 2 300 None; entry "A" 5 600 (Some 9%Z)] in
  let row := Row.mk "A" (Fin (ofZ 15)) (Fin (Q2Qc (1600 # 3))) (Some (ofZ 585))
                    (Fin (ofZ 8000)) (Fin (ofZ 8775)) in
  In row (LaffeyComparisonResult.byAttorney (calculateLaffeyComparison es matrix2024 None)) /\
  LaffeyComparisonResult.byAttorney
    (calculateLaffeyComparison (entries_of "A" es) matrix2024 None) = [row].
Proof.
  intros es row.
  assert (H : In row (LaffeyComparisonResult.byAttorney
                        (calculateLaffeyComparison es matrix2024 None))).
  { left. qc_eq. }
  exact (conj H (row_from_own_entries es matrix2024 None row H)).
Defined.

(* ------------------------------------------------------------------ *)
(** ** Difference, flag and Exhibit C *)

(** A benchmark amount is a finite number or [NaN], never an infinity,
    and so is their total. *)
Lemma num_sum_fin_or_NaN (l : list number) :
  Forall (fun x => x = NaN \/ exists q, x = Fin q) l ->
  num_sum l = NaN \/ exists q, num_sum l = Fin q.
Proof.
  induction 1 as [ | x l Hx _ IH]; simpl.
  - right. now eexists.
  - destruct Hx as [-> | [q ->]]; [now left | ].
    destruct IH as [-> | [t ->]]; [now left | right]. simpl. now eexists.
Qed.

Lemma totalLaffey_fin_or_NaN es laffeyMatrix attorneys :
  let r := calculateLaffeyComparison es laffeyMatrix attorneys in
  LaffeyComparisonResult.totalLaffey r = NaN \/
  exists q, LaffeyComparisonResult.totalLaffey r = Fin q.
Proof.
  intros r. subst r. rewrite calculateLaffeyComparison_eq.
  cbn [LaffeyComparisonResult.totalLaffey]. apply num_sum_fin_or_NaN.
  apply Forall_forall. intros x Hx. apply in_map_iff in Hx.
  destruct Hx as (row & <- & Hin). rewrite <- byAttorney_rows in Hin.
  apply row_binding in Hin. destruct Hin as (d & Hget & ->).
  destruct (aggregate_get_hours _ _ _ _ Hget) as (e & l & _ & Hh & _).
  cbn [row_of Row.laffeyAmount]. rewrite Hh.
  destruct (calculateLaffeyRate _ _); simpl; [right; now eexists | now left].
Qed.

Lemma leb_sub_sign (B L : number) :
  (L = NaN \/ exists q, L = Fin q) ->
  (num_leb B L = true -> num_le (Fin 0) (num_sub L B)) /\
  (num_leb B L = false -> forall d, num_sub L B = Fin d -> d < 0).
Proof.
  intros [-> | [l ->]].
  - rewrite num_leb_NaN_r. split; [discriminate | ].
    intros _ d. unfold num_sub. simpl. discriminate.
  - destruct B as [b | | | ]; unfold num_sub; simpl; split; intros H;
      try discriminate; try (intros d; discriminate).
    + constructor. apply Qcleb_le in H. qc_order.
    + intros d [= <-]. apply Qcleb_false in H. qc_order.
    + constructor. discriminate.
Qed.

(** The test [B <= L] and the sign of [L - B], on all values: the
    infinities included, [NaN] set apart. *)
Lemma leb_iff_sub (B L : number) :
  num_sub L B <> NaN ->
  (num_leb B L = true <-> num_le (Fin 0) (num_sub L B)).
Proof.
  destruct L as [l | | | ], B as [b | | | ]; unfold num_sub; simpl; intros HN;
    try congruence; (split; intros H).
  all: try discriminate.
  all: try (constructor; discriminate).
  all: try reflexivity.
  all: try (inversion H; congruence).
  - constructor. apply Qcleb_le in H. qc_order.
  - apply Qcleb_le. inversion H; subst. qc_order.
Qed.

(** X6.  Whenever the difference is a number, the flag tells its sign: it
    is true exactly when the difference is at least 0.  This holds of any
    two totals, infinite ones included. *)
Theorem flag_iff_sign es laffeyMatrix attorneys :
  let r := calculateLaffeyComparison es laffeyMatrix attorneys in
  LaffeyComparisonResult.difference r <> NaN ->
  (LaffeyComparisonResult.isUnderLaffey r = true <->
   num_le (Fin 0) (LaffeyComparisonResult.difference r)).
Proof.
  intros r. exact (leb_iff_sub _ _).
Qed.

Lemma flag_iff_sign_witness :
  let r := calculateLaffeyComparison
             [entry "A" 10 500 (Some 9%Z); entry "A" 5 600 (Some 9%Z)] matrix2024 None in
  LaffeyComparisonResult.difference r <> NaN /\
  (LaffeyComparisonResult.isUnderLaffey r = true <->
   num_le (Fin 0) (LaffeyComparisonResult.difference r)).
Proof.
  intros r.
  assert (H : LaffeyComparisonResult.difference r <> NaN) by discriminate.
  exact (conj H (flag_iff_sign
                   [entry "A" 10 500 (Some 9%Z); entry "A" 5 600 (Some 9%Z)]
                   matrix2024 None H)).
Defined.

Lemma num_abs_nonneg (x : number) : num_le (Fin 0) (num_abs x) \/ num_abs x = NaN.
Proof.
  destruct x as [q | | | ]; simpl.
  - left. constructor. destruct (Qcleb 0 q) eqn:E.
    + now apply Qcleb_le.
    + apply Qcleb_false in E. qc_order.
  - left. constructor. discriminate.
  - left. constructor. discriminate.
  - now right.
Qed.

(** X7.  The amount in the closing sentence of Exhibit C, "below" or "exceed
    by", is never negative: it is a number at least 0, or [NaN]. *)
Theorem exhibitC_amount_nonneg es laffeyMatrix attorneys :
  let a := exhibitC_amount (calculateLaffeyComparison es laffeyMatrix attorneys) in
  num_le (Fin 0) a \/ a = NaN.
Proof.
  intros a. subst a. unfold exhibitC_amount.
  destruct (LaffeyComparisonResult.isUnderLaffey _) eqn:E.
  - left. revert E.
    exact (proj1 (leb_sub_sign _ _ (totalLaffey_fin_or_NaN es laffeyMatrix attorneys))).
  - apply num_abs_nonneg.
Qed.

(* ------------------------------------------------------------------ *)
(** ** Rows under the benchmark *)

Lemma num_sum_le {A} (f g : A -> number) (l : list A) :
  Forall (fun a => exists x y, f a = Fin x /\ g a = Fin y /\ x <= y) l ->
  exists s t, num_sum (map f l) = Fin s /\ num_sum (map g l) = Fin t /\ s <= t.
Proof.
  induction 1 as [ | a l (x & y & Hx & Hy & Hxy) _ (s & t & Hs & Ht & Hst)]; simpl.
  - exists 0, 0. repeat split. apply Qcle_refl.
  - rewrite Hx, Hy, Hs, Ht. simpl. exists (x + s), (y + t).
    repeat split. now apply Qcplus_le_compat.
Qed.

(** X10.  When the billed amount of every row is a finite number at most
    the benchmark amount of the row, itself finite, the flag is true: no
    attorney over the benchmark, no fees over the benchmark. *)
Theorem amounts_under_flag es laffeyMatrix attorneys :
  let r := calculateLaffeyComparison es laffeyMatrix attorneys in
  Forall amount_at_or_under (LaffeyComparisonResult.byAttorney r) ->
  LaffeyComparisonResult.isUnderLaffey r = true.
Proof.
  intros r Hall. subst r. rewrite calculateLaffeyComparison_eq in Hall |- *.
  cbn [LaffeyComparisonResult.byAttorney LaffeyComparisonResult.isUnderLaffey] in Hall |- *.
  destruct (num_sum_le Row.billedAmount Row.laffeyAmount
              (map (row_of laffeyMatrix) (aggregate attorneys es)))
    as (s & t & Hs & Ht & Hst).
  { eapply Forall_impl; [ | exact Hall]. intros row Hrow.
    unfold amount_at_or_under in Hrow.
    destruct (Row.billedAmount row) as [b | | | ]; try contradiction.
    destruct (Row.laffeyAmount row) as [l | | | ]; try contradiction.
    now exists b, l. }
  rewrite Hs, Ht. now apply Qcleb_le.
Qed.

Lemma amounts_under_flag_witness :
  let r := calculateLaffeyComparison
             [entry "A" 10 500 (Some 9%Z); entry "B" 2 300 None; entry "A" 5 600 (Some 9%Z)]
             matrix2024 None in
  Forall amount_at_or_under (LaffeyComparisonResult.byAttorney r) /\
  LaffeyComparisonResult.isUnderLaffey r = true.
Proof.
  intros r.
  assert (H : Forall amount_at_or_under (LaffeyComparisonResult.byAttorney r)).
  { repeat constructor; discriminate. }
  exact (conj H (amounts_under_flag
                   [entry "A" 10 500 (Some 9%Z); entry "B" 2 300 None;
                    entry "A" 5 600 (Some 9%Z)] matrix2024 None H)).
Defined.

(* ------------------------------------------------------------------ *)
(** ** Insertion-ordered maps, grouping loops *)

Section AMap.
Context {V : Type}.
Implicit Types (m : list (string * V)) (k : string) (v : V).

Lemma amap_get_set_same m k v : amap_get (amap_set m k v) k = Some v.
Proof.
  induction m as [ | [k' v'] m IH]; simpl.
  - now rewrite String.eqb_refl.
  - destruct (String.eqb k' k) eqn:E; simpl; rewrite E; auto.
Qed.

Lemma amap_get_set_other m k v k' :
  k <> k' -> amap_get (amap_set m k v) k' = amap_get m k'.
Proof.
  intros Hne. induction m as [ | [k0 v0] m IH]; simpl.
  - apply String.eqb_neq in Hne. now rewrite Hne.
  - destruct (String.eqb k0 k) eqn:E; simpl.
    + apply String.eqb_eq in E. subst k0.
      apply String.eqb_neq in Hne. now rewrite Hne.
    + now rewrite IH.
Qed.

Lemma amap_set_keys m k v :
  map fst (amap_set m k v) =
  if existsb (String.eqb k) (map fst m) then map fst m else map fst m ++ [k].
Proof.
  induction m as [ | [k' v'] m IH]; simpl; [reflexivity | ].
  rewrite (String.eqb_sym k k').
  destruct (String.eqb k' k) eqn:E; simpl; [reflexivity | ].
  rewrite IH. now destruct (existsb _ _).
Qed.

Lemma amap_get_In m k v : amap_get m k = Some v -> In (k, v) m.
Proof.
  induction m as [ | [k' v'] m IH]; simpl; [discriminate | ].
  destruct (String.eqb k' k) eqn:E.
  - apply String.eqb_eq in E. intros [= ->]. subst. now left.
  - auto.
Qed.

Lemma amap_In_get m k v :
  NoDup (map fst m) -> In (k, v) m -> amap_get m k = Some v.
Proof.
  induction m as [ | [k' v'] m IH]; simpl; [tauto | ].
  intros Hnd [H | H].
  - injection H as -> ->. now rewrite String.eqb_refl.
  - inversion Hnd as [ | ? ? Hnotin Hnd']; subst.
    destruct (String.eqb k' k) eqn:E.
    + apply String.eqb_eq in E. subst k'. exfalso. apply Hnotin.
      change k with (fst (k, v)). now apply in_map.
    + auto.
Qed.

Lemma amap_set_new m k v :
  amap_get m k = None -> amap_set m k v = m ++ [(k, v)].
Proof.
  induction m as [ | [k' v'] m IH]; simpl; [reflexivity | ].
  destruct (String.eqb k' k); [discriminate | ].
  intros H. now rewrite IH.
Qed.

(** A loop that, for each element, replaces the binding of the
    element's key by a function of the old binding and the element. *)
Section Grouping.
Context {E : Type} (key : E -> string) (upd : option V -> E -> V).

(** The binding of a key is the fold of the elements of that key, in
    input order. *)
Lemma group_fold (es : list E) m k :
  amap_get (fold_left (group_step key upd) es m) k =
  fold_left (fun acc e => Some (upd acc e))
            (filter (fun e => String.eqb (key e) k) es) (amap_get m k).
Proof.
  revert m. induction es as [ | e es IH]; intros m; [reflexivity | ].
  cbn [fold_left filter]. rewrite IH. unfold group_step.
  destruct (String.eqb_spec (key e) k) as [Hk | Hk].
  - subst k. now rewrite amap_get_set_same.
  - now rewrite amap_get_set_other.
Qed.

(** Keys come in the order of first occurrence. *)
Lemma group_keys (es : list E) :
  map fst (fold_left (group_step key upd) es []) = firstKeys (map key es).
Proof.
  induction es as [ | e es IH] using rev_ind; [reflexivity | ].
  rewrite fold_left_app, map_app. cbn [fold_left map].
  rewrite firstKeys_snoc, <- IH. unfold group_step. apply amap_set_keys.
Qed.

End Grouping.
End AMap.

(* ------------------------------------------------------------------ *)
(** ** The per-timekeeper summary of the billing exhibit *)

Lemma num_or_fin (q : Qc) : num_or (Fin q) (Fin 0) = Fin q.
Proof.
  unfold num_or, num_truthy. destruct (Qceqb q 0) eqn:E; [ | reflexivity].
  apply Qceqb_eq in E. now subst.
Qed.

Lemma summary_entry_group :
  summary_entry = group_step BillingEntry.attorney summary_update.
Proof. reflexivity. Qed.

Lemma feeLine_entry_group :
  feeLine_entry = group_step BillingEntry.attorney feeLine_update.
Proof. reflexivity. Qed.

Lemma amap_get_map {V W : Type} (g : V -> W) (m : list (string * V)) k :
  amap_get (map (fun b => (fst b, g (snd b))) m) k =
  match amap_get m k with Some v => Some (g v) | None => None end.
Proof.
  induction m as [ | [k' v] m IH]; simpl; [reflexivity | ].
  now destruct (String.eqb k' k).
Qed.

Lemma summary_fold (l : list BillingEntry.t) (H S : Qc) (z : number) :
  fold_left (fun acc e => Some (summary_update acc e)) l
            (Some (Summary.mk (Fin H) (Fin S) z))
  = Some (Summary.mk (Fin (H + sumHours l)) (Fin (S + sumAmount l)) z).
Proof.
  revert H S. induction l as [ | e l IH]; intros H S; simpl.
  - do 2 f_equal; f_equal; ring.
  - unfold summary_update at 2. rewrite !num_or_fin. simpl.
    rewrite IH. do 2 f_equal; f_equal; ring.
Qed.

(** What the first loop of the summary leaves for an attorney. *)
Lemma summary_get es k :
  amap_get (fold_left summary_entry es []) k =
  match entries_of k es with
  | [] => None
  | l => Some (Summary.mk (Fin (sumHours l)) (Fin (sumAmount l)) (Fin 0))
  end.
Proof.
  rewrite summary_entry_group, group_fold. fold (entries_of k es).
  destruct (entries_of k es) as [ | e l]; [reflexivity | ].
  cbn [fold_left amap_get]. unfold summary_update at 2. rewrite !num_or_fin. simpl.
  rewrite summary_fold. simpl. do 2 f_equal; f_equal; ring.
Qed.

Lemma average_rate_fin (H S : Qc) (z : number) :
  exists q, average_rate (Summary.mk (Fin H) (Fin S) z)
            = Summary.mk (Fin H) (Fin S) (Fin q) /\
            (0 < H -> q * H = S) /\ (H <= 0 -> q = 0).
Proof.
  unfold average_rate. cbn [Summary.hours Summary.amount num_ltb].
  destruct (Qcleb H 0) eqn:E; cbn [negb].
  - exists 0. split; [reflexivity | ]. apply Qcleb_le in E. split; [ | reflexivity].
    intros Hpos. exfalso. now apply (Qclt_not_le _ _ Hpos).
  - apply Qcleb_false in E.
    assert (Hne : H <> 0) by (intros Hc; rewrite Hc in E; now apply (Qclt_not_eq 0 0)).
    cbn [num_div]. apply Qceqb_neq in Hne. rewrite Hne. apply Qceqb_neq in Hne.
    exists (S / H). split; [reflexivity | ]. split.
    + intros _. field. exact Hne.
    + intros Hle. exfalso. now apply (Qclt_not_le _ _ E).
Qed.

Lemma summary_keys es :
  map fst (attorneySummary es) = firstKeys (map BillingEntry.attorney es).
Proof.
  unfold attorneySummary. rewrite map_map. cbn [fst].
  rewrite summary_entry_group.
  exact (group_keys BillingEntry.attorney summary_update es).
Qed.

Lemma feeLine_fold (l : list BillingEntry.t) (H S : Qc) (z : number) :
  fold_left (fun acc e => Some (feeLine_update acc e)) l
            (Some (FeeLine.mk (Fin H) (Fin S) z))
  = Some (FeeLine.mk (Fin (H + sumHours l)) (Fin (S + sumAmount l)) z).
Proof.
  revert H S. induction l as [ | e l IH]; intros H S; simpl.
  - do 2 f_equal; f_equal; ring.
  - unfold feeLine_update at 2. rewrite !num_or_fin. simpl.
    rewrite IH. do 2 f_equal; f_equal; ring.
Qed.

Lemma sumHours_zero (l : list BillingEntry.t) :
  Forall (fun e => BillingEntry.hours e = 0) l -> sumHours l = 0.
Proof.
  induction 1 as [ | e l He _ IH]; simpl; [reflexivity | ].
  rewrite He, IH. ring.
Qed.

(** X13.  The per-timekeeper summary guards its division: a timekeeper
    whose entries all carry 0 hours, however many they are, gets 0 hours
    and an average rate of 0, a number, where the running average of the
    comparison divides 0 by 0. *)
Theorem summary_zero_hours es k :
  entries_of k es <> [] ->
  Forall (fun e => BillingEntry.hours e = 0) (entries_of k es) ->
  exists d, amap_get (attorneySummary es) k = Some d /\
            Summary.hours d = Fin 0 /\
            Summary.avgRate d = Fin 0.
Proof.
  intros Hne Hall. apply sumHours_zero in Hall.
  unfold attorneySummary. rewrite amap_get_map, summary_get.
  destruct (entries_of k es) as [ | e l]; [congruence | ].
  cbv beta iota zeta. rewrite Hall.
  destruct (average_rate_fin 0 (sumAmount (e :: l)) (Fin 0)) as (q & Eq & _ & H0).
  rewrite Eq. eexists. split; [reflexivity | ].
  cbn [Summary.hours Summary.avgRate]. split; [reflexivity | ].
  f_equal. apply H0, Qcle_refl.
Qed.

Lemma summary_zero_hours_witness :
  let es := [entry "A" 0 100 None; entry "B" 2 300 None; entry "A" 0 100 None] in
  entries_of "A" es <> [] /\
  Forall (fun e => BillingEntry.hours e = 0) (entries_of "A" es) /\
  exists d, amap_get (attorneySummary es) "A" = Some d /\
            Summary.hours d = Fin 0 /\
            Summary.avgRate d = Fin 0.
Proof.
  intros es.
  assert (H1 : entries_of "A" es <> []) by discriminate.
  assert (H2 : Forall (fun e => BillingEntry.hours e = 0) (entries_of "A" es)).
  { repeat constructor. }
  exact (conj H1 (conj H2 (summary_zero_hours es "A" H1 H2))).
Defined.

Lemma feeSummary_keys es :
  map fst (feeSummary es) = firstKeys (map BillingEntry.attorney es).
Proof.
  unfold feeSummary. rewrite feeLine_entry_group.
  exact (group_keys BillingEntry.attorney feeLine_update es).
Qed.

(** X15.  The per-timekeeper summary of the billing exhibit, the fee table
    of the motion and the breakdown of the comparison list the same
    attorneys in the same order, the order of first appearance among the
    entries. *)
Theorem summaries_same_order es laffeyMatrix attorneys :
  let rows := LaffeyComparisonResult.byAttorney
                (calculateLaffeyComparison es laffeyMatrix attorneys) in
  map fst (attorneySummary es) = map Row.attorney rows /\
  map fst (feeSummary es) = map Row.attorney rows /\
  map Row.attorney rows = firstKeys (map BillingEntry.attorney es).
Proof.
  intros rows. subst rows. rewrite byAttorney_rows, row_of_attorney, aggregate_keys.
  split; [apply summary_keys | ]. split; [apply feeSummary_keys | reflexivity].
Qed.

(** X16.  In the fee table of the motion, the rate shown for a timekeeper
    is the rate of that timekeeper's first entry, whatever rates the
    later entries carry. *)
Theorem feeSummary_first_rate es k d :
  amap_get (feeSummary es) k = Some d ->
  exists first later,
    entries_of k es = first :: later /\
    FeeLine.rate d = Fin (BillingEntry.rate first).
Proof.
  unfold feeSummary. rewrite feeLine_entry_group, group_fold. fold (entries_of k es).
  destruct (entries_of k es) as [ | e l]; [discriminate | ].
  cbn [fold_left amap_get]. unfold feeLine_update at 2. rewrite !num_or_fin. simpl.
  rewrite feeLine_fold. intros [= <-]. now exists e, l.
Qed.

Lemma feeSummary_first_rate_witness :
  let es := [entry "A" 10 500 None; entry "B" 2 300 None; entry "A" 5 600 None] in
  let d := FeeLine.mk (Fin (ofZ 15)) (Fin (ofZ 8000)) (Fin (ofZ 500)) in
  amap_get (feeSummary es) "A" = Some d /\
  exists first later,
    entries_of "A" es = first :: later /\
    FeeLine.rate d = Fin (BillingEntry.rate first).
Proof.
  intros es d.
  assert (H : amap_get (feeSummary es) "A" = Some d) by qc_eq.
  exact (conj H (feeSummary_first_rate es "A" d H)).
Defined.

(* ------------------------------------------------------------------ *)
(** ** Work categories *)

Lemma firstKeys_In ks k : In k (firstKeys ks) <-> In k ks.
Proof.
  induction ks as [ | k0 ks IH] using rev_ind; [reflexivity | ].
  rewrite firstKeys_snoc, in_app_iff. simpl.
  destruct (existsb (String.eqb k0) (firstKeys ks)) eqn:E.
  - rewrite IH. split; [tauto | ]. intros [H | [<- | []]]; [exact H | ].
    apply existsb_exists in E. destruct E as (x & Hx & Ex).
    apply String.eqb_eq in Ex. subst x. now apply IH.
  - rewrite in_app_iff, IH. simpl. tauto.
Qed.

Lemma firstKeys_NoDup ks : NoDup (firstKeys ks).
Proof.
  induction ks as [ | k0 ks IH] using rev_ind; [constructor | ].
  rewrite firstKeys_snoc.
  destruct (existsb (String.eqb k0) (firstKeys ks)) eqn:E; [exact IH | ].
  apply NoDup_rev in IH. rewrite <- (rev_involutive (firstKeys ks ++ [k0])).
  apply NoDup_rev. rewrite rev_app_distr. simpl. constructor; [ | exact IH].
  rewrite <- in_rev. intros Hin.
  assert (Ht : existsb (String.eqb k0) (firstKeys ks) = true).
  { apply existsb_exists. exists k0. split; [exact Hin | apply String.eqb_refl]. }
  congruence.
Qed.

Lemma prefix_append (kw b : string) : String.prefix kw (String.append kw b) = true.
Proof.
  induction kw as [ | c kw IH]; simpl; [now destruct b | ].
  destruct (ascii_dec c c) as [_ | Hc]; [exact IH | congruence].
Qed.

Lemma prefix_inv (kw s : string) :
  String.prefix kw s = true -> exists b, s = String.append kw b.
Proof.
  revert s. induction kw as [ | c kw IH]; intros s.
  - intros _. now exists s.
  - destruct s as [ | c' s]; simpl; [discriminate | ].
    destruct (ascii_dec c c') as [<- | _]; [ | discriminate].
    intros H. destruct (IH s H) as [b ->]. now exists b.
Qed.

(** [includes] is occurrence as a substring. *)
Lemma includes_spec (s kw : string) :
  includes s kw = true <->
  exists a b, s = String.append a (String.append kw b).
Proof.
  split.
  - induction s as [ | c s IH]; cbn [includes]; rewrite orb_true_iff; intros [H | H].
    + apply prefix_inv in H. destruct H as [b Hb]. now exists EmptyString, b.
    + discriminate.
    + apply prefix_inv in H. destruct H as [b Hb]. now exists EmptyString, b.
    + destruct (IH H) as (a & b & ->). now exists (String c a), b.
  - intros (a & b & ->). induction a as [ | c a IH].
    + cbn [String.append].
      pose proof (prefix_append kw b) as Hp.
      destruct (String.append kw b); cbn [includes]; now rewrite Hp.
    + cbn [String.append includes]. rewrite IH. apply orb_true_r.
Qed.

Lemma workCategory_label (desc : string) : In (workCategory desc) categoryLabels.
Proof.
  unfold workCategory.
  repeat match goal with
    | |- In (if ?c then _ else _) _ => destruct c; [simpl; auto 12 | ]
    end.
  simpl; auto 12.
Qed.

(** X17.  A description in which "research" occurs anywhere is legal research,
    whatever else it contains; every description gets one of the nine
    labels. *)
Theorem research_first (desc : string) :
  ((exists a b, desc = String.append a (String.append "research" b)) ->
     workCategory desc = "Legal research") /\
  In (workCategory desc) categoryLabels.
Proof.
  split; [ | apply workCategory_label].
  intros H. apply includes_spec in H. unfold workCategory. now rewrite H.
Qed.

Lemma research_first_witness :
  (exists a b, "draft motion after research on fees"
               = String.append a (String.append "research" b)) /\
  workCategory "draft motion after research on fees" = "Legal research".
Proof.
  assert (H : exists a b, "draft motion after research on fees"
                          = String.append a (String.append "research" b)).
  { now exists "draft motion after ", " on fees". }
  exact (conj H (proj1 (research_first "draft motion after research on fees") H)).
Defined.

Lemma categories_entry_group toLowerCase :
  categories_entry toLowerCase
  = group_step (entryCategory toLowerCase) categories_update.
Proof. reflexivity. Qed.

(** X19.  The motion lists at most nine categories, each once, in the order
    in which the entries first reach them, all from the fixed list of
    labels, however many entries there are. *)
Theorem categories_lines toLowerCase es :
  let lines := map fst (workCategories toLowerCase es) in
  lines = firstKeys (map (entryCategory toLowerCase) es) /\
  NoDup lines /\
  incl lines categoryLabels /\
  (List.length lines <= 9)%nat.
Proof.
  intros lines.
  assert (E : lines = firstKeys (map (entryCategory toLowerCase) es)).
  { subst lines. unfold workCategories. rewrite categories_entry_group.
    apply group_keys. }
  assert (Hnd : NoDup lines) by (rewrite E; apply firstKeys_NoDup).
  assert (Hincl : incl lines categoryLabels).
  { intros c Hc. rewrite E in Hc. apply firstKeys_In, in_map_iff in Hc.
    destruct Hc as (e & <- & _). apply workCategory_label. }
  repeat split; try assumption.
  change 9%nat with (List.length categoryLabels). now apply NoDup_incl_length.
Qed.

(* ------------------------------------------------------------------ *)
(** ** File names *)

Lemma replaceRuns_clean (inRun : bool) (s : jsstring) :
  Forall (fun c => isWhiteSpace c = false) (replaceRuns inRun s).
Proof.
  revert inRun. induction s as [ | c s IH]; intros inRun; simpl; [constructor | ].
  destruct (isWhiteSpace c) eqn:E.
  - destruct inRun; [apply IH | ]. constructor; [reflexivity | apply IH].
  - constructor; [exact E | apply IH].
Qed.

Lemma replaceRuns_id (inRun : bool) (s : jsstring) :
  Forall (fun c => isWhiteSpace c = false) s -> replaceRuns inRun s = s.
Proof.
  intros H. revert inRun. induction H as [ | c s Hc _ IH]; intros inRun; simpl.
  - reflexivity.
  - now rewrite Hc, IH.
Qed.

Lemma replaceRuns_length (inRun : bool) (s : jsstring) :
  (List.length (replaceRuns inRun s) <= List.length s)%nat.
Proof.
  revert inRun. induction s as [ | c s IH]; intros inRun; simpl; [lia | ].
  destruct (isWhiteSpace c).
  - destruct inRun; simpl.
    + specialize (IH true). lia.
    + specialize (IH true). lia.
  - simpl. specialize (IH false). lia.
Qed.

Lemma replaceRuns_app (inRun : bool) (a rest : jsstring) :
  replaceRuns inRun (a ++ rest) =
  replaceRuns inRun a ++
  replaceRuns (fold_left (fun _ c => isWhiteSpace c) a inRun) rest.
Proof.
  revert inRun. induction a as [ | c a IH]; intros inRun; simpl; [reflexivity | ].
  destruct (isWhiteSpace c).
  - destruct inRun; rewrite IH; reflexivity.
  - rewrite IH. reflexivity.
Qed.

Lemma replaceRuns_in_run (ws rest : jsstring) :
  Forall (fun c => isWhiteSpace c = true) ws ->
  replaceRuns true (ws ++ rest) = replaceRuns true rest.
Proof.
  induction 1 as [ | c ws Hc _ IH]; simpl; [reflexivity | ].
  now rewrite Hc.
Qed.

Lemma replaceRuns_start (inRun : bool) (b : jsstring) :
  match b with [] => True | c :: _ => isWhiteSpace c = false end ->
  replaceRuns inRun b = replaceRuns false b.
Proof.
  destruct b as [ | c b]; simpl; [reflexivity | ]. now intros ->.
Qed.

(** X21.  The result of the replacement holds no white space, is never longer
    than the name, is left unchanged by a second replacement, and a name
    without white space is returned as it is. *)
Theorem replaceWhiteSpace_clean (s : jsstring) :
  Forall (fun c => isWhiteSpace c = false) (replaceWhiteSpace s) /\
  (List.length (replaceWhiteSpace s) <= List.length s)%nat /\
  replaceWhiteSpace (replaceWhiteSpace s) = replaceWhiteSpace s /\
  (Forall (fun c => isWhiteSpace c = false) s -> replaceWhiteSpace s = s).
Proof.
  unfold replaceWhiteSpace. split; [apply replaceRuns_clean | ].
  split; [apply replaceRuns_length | ].
  split; [apply replaceRuns_id, replaceRuns_clean | apply replaceRuns_id].
Qed.

Lemma replaceWhiteSpace_clean_witness :
  Forall (fun c => isWhiteSpace c = false) (units "Smith") /\
  replaceWhiteSpace (units "Smith") = units "Smith".
Proof.
  assert (H : Forall (fun c => isWhiteSpace c = false) (units "Smith"))
    by (repeat constructor).
  destruct (replaceWhiteSpace_clean (units "Smith")) as (_ & _ & _ & H4).
  exact (conj H (H4 H)).
Defined.

(** X22.  Each maximal run of white space becomes exactly one underscore:
    around a run that is not preceded and not followed by white space,
    the replacement works on the two sides separately. *)
Theorem replaceWhiteSpace_run (a ws b : jsstring) :
  endsInRun a = false ->
  ws <> [] ->
  Forall (fun c => isWhiteSpace c = true) ws ->
  match b with [] => True | c :: _ => isWhiteSpace c = false end ->
  replaceWhiteSpace (a ++ ws ++ b)
  = replaceWhiteSpace a ++ [95%N] ++ replaceWhiteSpace b.
Proof.
  intros Ha Hne Hws Hb. unfold replaceWhiteSpace, endsInRun in *.
  rewrite replaceRuns_app, Ha. f_equal.
  destruct ws as [ | w ws]; [congruence | ].
  inversion Hws as [ | ? ? Hw Hws']; subst. simpl. rewrite Hw.
  rewrite replaceRuns_in_run by exact Hws'.
  now rewrite (replaceRuns_start true b Hb).
Qed.

Lemma replaceWhiteSpace_run_witness :
  let a := units "John" in
  let ws := [32%N; 9%N; 160%N] in
  let b := units "Smith" in
  endsInRun a = false /\
  ws <> [] /\
  Forall (fun c => isWhiteSpace c = true) ws /\
  replaceWhiteSpace (a ++ ws ++ b) = units "John_Smith".
Proof.
  intros a ws b.
  assert (H1 : endsInRun a = false) by reflexivity.
  assert (H2 : ws <> []) by discriminate.
  assert (H3 : Forall (fun c => isWhiteSpace c = true) ws) by (repeat constructor).
  assert (H4 : match b with [] => True | c :: _ => isWhiteSpace c = false end)
    by reflexivity.
  exact (conj H1 (conj H2 (conj H3 (replaceWhiteSpace_run a ws b H1 H2 H3 H4)))).
Defined.

Lemma filename_parts (p : string) (n f : jsstring) :
  Some (units p ++ replaceWhiteSpace n ++ units ".docx") = Some f ->
  Forall (fun c => isWhiteSpace c = false) (units p) ->
  Forall (fun c => isWhiteSpace c = false) f /\
  exists stem, f = stem ++ units ".docx".
Proof.
  intros Hf Hp. injection Hf as <-. split.
  - apply Forall_app. split; [exact Hp | ]. apply Forall_app. split.
    + apply replaceRuns_clean.
    + repeat constructor.
  - exists (units p ++ replaceWhiteSpace n). now rewrite <- app_assoc.
Qed.

Lemma filename_known (type : string) (clientName f : jsstring) :
  filename type clientName = Some f ->
  In type documentTypes /\
  Forall (fun c => isWhiteSpace c = false) f /\
  exists stem, f = stem ++ units ".docx".
Proof.
  unfold filename, documentTypes.
  destruct (String.eqb_spec type "motion") as [-> | H1];
    [ | destruct (String.eqb_spec type "repair_summary") as [-> | H2];
        [ | destruct (String.eqb_spec type "billing_summary") as [-> | H3];
            [ | destruct (String.eqb_spec type "full_package") as [-> | H4] ] ] ].
  1-4: intros Hf; split; [simpl; tauto | ];
       apply (filename_parts _ _ _ Hf); repeat constructor.
  discriminate.
Qed.

Lemma filename_unknown (type : string) (clientName : jsstring) :
  filename type clientName = None <-> ~ In type documentTypes.
Proof.
  split.
  - intros HN Hin. unfold documentTypes in Hin. simpl in Hin.
    destruct Hin as [<- | [<- | [<- | [<- | []]]]]; discriminate HN.
  - intros Hn. destruct (filename type clientName) as [f | ] eqn:E; [ | reflexivity].
    exfalso. apply Hn. now apply (filename_known _ _ _ E).
Qed.

(** X23.  The handler sends an attachment only for one of the four known
    document types, and only when the body was read, the document was
    built and the buffer was packed; the file name of the attachment
    holds no white space, whatever the client name, and ends in ".docx".
    It answers 400 exactly when the body was read and the type is none of
    the four; a known type whose generator or packing throws is answered
    500, without a file name. *)
Theorem POST_attachment (bodyRead : bool) (type : string) (clientName : jsstring)
  (documentBuilt bufferPacked : bool) :
  let response := POST bodyRead type clientName documentBuilt bufferPacked in
  (forall f, response = Attachment f ->
     In type documentTypes /\
     bodyRead = true /\ documentBuilt = true /\ bufferPacked = true /\
     Forall (fun c => isWhiteSpace c = false) f /\
     exists stem, f = stem ++ units ".docx") /\
  (response = Status400 <-> bodyRead = true /\ ~ In type documentTypes) /\
  (In type documentTypes -> documentBuilt && bufferPacked = false ->
   bodyRead = true -> response = Status500).
Proof.
  intros response. subst response. unfold POST.
  pose proof (filename_known type clientName) as Hk.
  pose proof (filename_unknown type clientName) as Hu.
  destruct bodyRead.
  2: { split; [discriminate | ]. split; [ | discriminate].
       split; [discriminate | ]. now intros [H _]. }
  destruct (filename type clientName) as [name | ].
  - destruct (Hk name eq_refl) as (Hin & Hclean & Hstem).
    split; [ | split].
    + destruct documentBuilt, bufferPacked; try discriminate.
      intros f [= <-]. repeat split; assumption.
    + split.
      * destruct documentBuilt, bufferPacked; discriminate.
      * intros [_ Hn]. contradiction.
    + intros _ Hb _. destruct documentBuilt, bufferPacked; try reflexivity.
      discriminate Hb.
  - split; [discriminate | ]. split.
    + split; [ | reflexivity]. intros _. split; [reflexivity | ]. now apply Hu.
    + intros Hin. exfalso. now apply (proj1 Hu).
Qed.

Lemma POST_attachment_witness :
  let f := units "Motion_for_Fees_Ann_Lee.docx" in
  POST true "motion" (units "Ann  Lee") true true = Attachment f /\
  In "motion" documentTypes /\
  Forall (fun c => isWhiteSpace c = false) f /\
  POST true "motion" (units "Ann  Lee") false true = Status500 /\
  POST true "letter" (units "Ann  Lee") true true = Status400.
Proof.
  intros f.
  assert (H : POST true "motion" (units "Ann  Lee") true true = Attachment f)
    by reflexivity.
  destruct (POST_attachment true "motion" (units "Ann  Lee") true true) as (H1 & _ & _).
  destruct (H1 f H) as (Hin & _ & _ & _ & Hclean & _).
  destruct (POST_attachment true "motion" (units "Ann  Lee") false true) as (_ & _ & H3).
  destruct (POST_attachment true "letter" (units "Ann  Lee") true true) as (_ & H2 & _).
  assert (Hn : ~ In "letter" documentTypes).
  { simpl. intros [E | [E | [E | [E | []]]]]; discriminate E. }
  exact (conj H (conj Hin (conj Hclean
           (conj (H3 Hin eq_refl eq_refl) (proj2 H2 (conj eq_refl Hn)))))).
Defined.

(** X24.  The document type can be read off the file name: two requests that
    get the same file name have the same type, whatever the client
    names. *)
Theorem filename_tells_type (t1 t2 : string) (n1 n2 : jsstring) (f : jsstring) :
  filename t1 n1 = Some f -> filename t2 n2 = Some f -> t1 = t2.
Proof.
  unfold filename.
  destruct (String.eqb_spec t1 "motion") as [-> | ?];
    [ | destruct (String.eqb_spec t1 "repair_summary") as [-> | ?];
        [ | destruct (String.eqb_spec t1 "billing_summary") as [-> | ?];
            [ | destruct (String.eqb_spec t1 "full_package") as [-> | ?];
                [ | discriminate ] ] ] ];
    (destruct (String.eqb_spec t2 "motion") as [-> | ?];
     [ | destruct (String.eqb_spec t2 "repair_summary") as [-> | ?];
         [ | destruct (String.eqb_spec t2 "billing_summary") as [-> | ?];
             [ | destruct (String.eqb_spec t2 "full_package") as [-> | ?];
                 [ | intros _; discriminate ] ] ] ]);
    try reflexivity;
    intros [= <-] [= H]; apply (f_equal (firstn 9)) in H; discriminate H.
Qed.

Lemma filename_tells_type_witness :
  filename "motion" (units "A B") = Some (units "Motion_for_Fees_A_B.docx") /\
  filename "motion" (units "A  B") = Some (units "Motion_for_Fees_A_B.docx") /\
  "motion" = "motion".
Proof.
  assert (H1 : filename "motion" (units "A B") = Some (units "Motion_for_Fees_A_B.docx"))
    by reflexivity.
  assert (H2 : filename "motion" (units "A  B") = Some (units "Motion_for_Fees_A_B.docx"))
    by reflexivity.
  exact (conj H1 (conj H2 (filename_tells_type _ _ _ _ _ H1 H2))).
Defined.

(* ------------------------------------------------------------------ *)
(** ** Truncated descriptions *)

(** X25.  The Description cell never holds more than 63 units; a description
    of at most 60 units is shown as it is, a longer one is cut to its
    first 60 units followed by three dots. *)
Theorem truncateDescription_bounds (description : jsstring) :
  (List.length (truncateDescription description) <= 63)%nat /\
  ((List.length description <= 60)%nat -> truncateDescription description = description) /\
  ((60 < List.length description)%nat ->
     truncateDescription description = firstn 60 description ++ units "..." /\
     List.length (truncateDescription description) = 63%nat) /\
  firstn 60 (truncateDescription description) = firstn 60 description.
Proof.
  unfold truncateDescription.
  pose proof (firstn_le_length 60 description) as Hle.
  destruct (Nat.ltb_spec 60 (List.length description)) as [Hlt | Hge].
  - assert (El : List.length (firstn 60 description) = 60%nat)
      by (apply firstn_length_le; lia).
    split; [rewrite length_app, El; simpl; lia | ].
    split; [intros H; lia | ].
    split; [intros _; split; [reflexivity | rewrite length_app, El; simpl; lia] | ].
    rewrite firstn_app, El, Nat.sub_diag.
    change (firstn 0 (units "...")) with (@nil N).
    now rewrite app_nil_r, firstn_firstn.
  - rewrite app_nil_r.
    split; [lia | ].
    split; [intros _; now apply firstn_all2 | ].
    split; [intros H; lia | ].
    now rewrite firstn_firstn.
Qed.

Lemma truncateDescription_bounds_witness :
  (List.length (units "Draft motion") <= 60)%nat /\
  truncateDescription (units "Draft motion") = units "Draft motion".
Proof.
  assert (H : (List.length (units "Draft motion") <= 60)%nat) by (simpl; lia).
  destruct (truncateDescription_bounds (units "Draft motion")) as (_ & H2 & _).
  exact (conj H (H2 H)).
Defined.

(* ------------------------------------------------------------------ *)
(** ** Days out of service *)

Lemma daysOf_fin (ro : RepairOrder.t) :
  daysOf ro = Fin (match RepairOrder.daysDown ro with Some d => d | None => 0 end).
Proof. unfold daysOf. destruct (RepairOrder.daysDown ro); [apply num_or_fin | reflexivity]. Qed.

Lemma daysOf_absent (ro : RepairOrder.t) : hasDays ro = false -> daysOf ro = Fin 0.
Proof.
  unfold hasDays, daysOf. destruct (RepairOrder.daysDown ro) as [d | ]; [ | reflexivity].
  intros H. apply negb_false_iff, Qceqb_eq in H. now subst d.
Qed.

Lemma totalDaysDown_skip (l : list RepairOrder.t) (a : number) :
  fold_left (fun sum ro => num_add sum (daysOf ro)) l a =
  fold_left (fun sum ro => num_add sum (daysOf ro)) (filter hasDays l) a.
Proof.
  revert a. induction l as [ | ro l IH]; intros a; [reflexivity | ].
  cbn [fold_left filter]. destruct (hasDays ro) eqn:E.
  - cbn [fold_left]. apply IH.
  - rewrite (daysOf_absent _ E), num_add_0_r. apply IH.
Qed.

(** X26.  A repair order without a number of days ([null]), or with 0,
    counts for nothing in the days out of service: the total is the one
    of the orders that carry a number other than 0, taken in their
    order. *)
Theorem totalDaysDown_skips_absent (repairOrders : list RepairOrder.t) :
  totalDaysDown repairOrders = totalDaysDown (filter hasDays repairOrders).
Proof. apply totalDaysDown_skip. Qed.

(* ------------------------------------------------------------------ *)
(** ** Issue bullets *)

Lemma jsstring_eqb_eq (a b : jsstring) : jsstring_eqb a b = true <-> a = b.
Proof.
  unfold jsstring_eqb. destruct (list_eq_dec N.eq_dec a b); split; congruence.
Qed.

Lemma set_add_NoDup (s : list jsstring) (x : jsstring) :
  NoDup s -> NoDup (set_add s x).
Proof.
  intros H. unfold set_add. destruct (existsb (jsstring_eqb x) s) eqn:E; [exact H | ].
  apply NoDup_rev in H. rewrite <- (rev_involutive (s ++ [x])).
  apply NoDup_rev. rewrite rev_app_distr. simpl. constructor; [ | exact H].
  rewrite <- in_rev. intros Hin.
  assert (Ht : existsb (jsstring_eqb x) s = true).
  { apply existsb_exists. exists x. split; [exact Hin | now apply jsstring_eqb_eq]. }
  congruence.
Qed.

Lemma set_add_In (s : list jsstring) (x y : jsstring) :
  In y (set_add s x) -> In y s \/ y = x.
Proof.
  unfold set_add. destruct (existsb (jsstring_eqb x) s); [now left | ].
  rewrite in_app_iff. simpl. intros [H | [H | []]]; [now left | now right].
Qed.

(** What a bullet can be: the first 100 units of a concern that is not
    empty. *)
Lemma issues_invariant (all l : list RepairOrder.t) (acc : list jsstring) :
  incl l all ->
  NoDup acc ->
  (forall b, In b acc ->
     exists ro c, In ro all /\ RepairOrder.customerConcern ro = Some c /\
                  c <> [] /\ b = firstn 100 c) ->
  NoDup (fold_left issues_entry l acc) /\
  (forall b, In b (fold_left issues_entry l acc) ->
     exists ro c, In ro all /\ RepairOrder.customerConcern ro = Some c /\
                  c <> [] /\ b = firstn 100 c).
Proof.
  revert acc. induction l as [ | r l IH]; intros acc Hincl Hnd Hacc; [now split | ].
  cbn [fold_left]. apply IH.
  - intros x Hx. apply Hincl. now right.
  - unfold issues_entry. destruct (RepairOrder.customerConcern r) as [[ | c s] | ];
      try exact Hnd. now apply set_add_NoDup.
  - intros b Hb. unfold issues_entry in Hb.
    destruct (RepairOrder.customerConcern r) as [[ | c s] | ] eqn:Ec;
      try (now apply Hacc).
    apply set_add_In in Hb. destruct Hb as [Hb | ->]; [now apply Hacc | ].
    exists r, (c :: s). split; [apply Hincl; now left | ].
    split; [exact Ec | ]. split; [discriminate | reflexivity].
Qed.

Lemma firstn_In {A} (n : nat) (l : list A) (x : A) : In x (firstn n l) -> In x l.
Proof.
  intros H. rewrite <- (firstn_skipn n l). apply in_or_app. now left.
Qed.

(** X27.  The repair paragraph shows at most five bullets, no two alike; each
    is the first 100 units of the concern of one of the repair orders, is
    not empty and is at most 100 units long. *)
Theorem issueBullets_shape (repairOrders : list RepairOrder.t) :
  (List.length (issueBullets repairOrders) <= 5)%nat /\
  NoDup (issueBullets repairOrders) /\
  (forall b, In b (issueBullets repairOrders) ->
     b <> [] /\ (List.length b <= 100)%nat /\
     exists ro c, In ro repairOrders /\ RepairOrder.customerConcern ro = Some c /\
                  b = firstn 100 c).
Proof.
  unfold issueBullets.
  destruct (issues_invariant repairOrders repairOrders [] (incl_refl _) (NoDup_nil _))
    as [Hnd Hin]; [intros b [] | ].
  split; [apply firstn_le_length | ]. split.
  - rewrite <- (firstn_skipn 5 (fold_left issues_entry repairOrders [])) in Hnd.
    now apply NoDup_app_remove_r in Hnd.
  - intros b Hb. apply firstn_In in Hb. destruct (Hin b Hb) as (ro & c & H1 & H2 & H3 & ->).
    split; [destruct c; [congruence | discriminate] | ].
    split; [apply firstn_le_length | ]. now exists ro, c.
Qed.

Lemma issueBullets_shape_witness :
  let ro c := RepairOrder.mk None None None None None None None c None None None None in
  let ros := [ro (Some (units "Engine stalls")); ro None; ro (Some (units "Engine stalls"));
              ro (Some []); ro (Some (units "Brake noise"))] in
  In (units "Brake noise") (issueBullets ros) /\
  issueBullets ros = [units "Engine stalls"; units "Brake noise"] /\
  (List.length (units "Brake noise") <= 100)%nat.
Proof.
  intros ro ros.
  assert (H : In (units "Brake noise") (issueBullets ros)) by (right; now left).
  destruct (issueBullets_shape ros) as (_ & _ & H3).
  destruct (H3 _ H) as (_ & H4 & _).
  exact (conj H (conj eq_refl H4)).
Defined.

(* ------------------------------------------------------------------ *)
(** ** Work categories, table-driven *)

Lemma amap_set_set {V : Type} (m : list (string * V)) k (v0 v : V) :
  amap_set (amap_set m k v0) k v = amap_set m k v.
Proof.
  induction m as [ | [k' v'] m IH]; simpl.
  - now rewrite String.eqb_refl.
  - destruct (String.eqb k' k) eqn:E; simpl; rewrite E; [reflexivity | now rewrite IH].
Qed.

Lemma categoryLine_entry_group toLowerCase m e :
  categoryLine_entry toLowerCase m e
  = group_step (tableCategory toLowerCase) categoryLine_update m e.
Proof.
  unfold categoryLine_entry, group_step, categoryLine_update.
  destruct (amap_get m (tableCategory toLowerCase e)) as [c | ] eqn:E.
  - now rewrite E.
  - rewrite amap_get_set_same. apply amap_set_set.
Qed.

Lemma fold_left_ext {A B} (f g : A -> B -> A) (l : list B) (a : A) :
  (forall x y, f x y = g x y) -> fold_left f l a = fold_left g l a.
Proof.
  intros H. revert a. induction l as [ | y l IH]; intros a; simpl; [reflexivity | ].
  now rewrite H, IH.
Qed.

Lemma tableCategories_group toLowerCase es :
  tableCategories toLowerCase es
  = fold_left (group_step (tableCategory toLowerCase) categoryLine_update) es [].
Proof. apply fold_left_ext. apply categoryLine_entry_group. Qed.

Lemma firstCategory_label (desc : string) (table : list (string * string)) (d : string)
  (labels : list string) :
  In d labels -> Forall (fun p => In (snd p) labels) table ->
  In (firstCategory desc table d) labels.
Proof.
  intros Hd Ht. induction Ht as [ | [kw cat] t Hp _ IH]; simpl; [exact Hd | ].
  destruct (includes desc kw); [exact Hp | exact IH].
Qed.


(** The list of items of a line is created empty and never filled. *)
Lemma categoryLine_items (l : list BillingEntry.t) (acc : option CategoryLine.t) :
  (forall c, acc = Some c -> CategoryLine.items c = []) ->
  forall c, fold_left (fun acc e => Some (categoryLine_update acc e)) l acc = Some c ->
            CategoryLine.items c = [].
Proof.
  revert acc. induction l as [ | e l IH]; intros acc Hacc c; [apply Hacc | ].
  cbn [fold_left]. apply IH. intros c' [= <-].
  unfold categoryLine_update. cbn [CategoryLine.items].
  destruct acc as [c0 | ]; [now apply Hacc | reflexivity].
Qed.

(** X20.  The table-driven version lists at most nine categories, each
    once, in the order in which the entries first reach them; every label
    is a category of the table or the default, and no line carries
    items. *)
Theorem tableCategories_lines toLowerCase es :
  let lines := tableCategories toLowerCase es in
  map fst lines = firstKeys (map (tableCategory toLowerCase) es) /\
  NoDup (map fst lines) /\
  incl (map fst lines) tableLabels /\
  (List.length lines <= 9)%nat /\
  (forall c d, amap_get lines c = Some d -> CategoryLine.items d = []).
Proof.
  intros lines.
  assert (E : map fst lines = firstKeys (map (tableCategory toLowerCase) es)).
  { subst lines. rewrite tableCategories_group. apply group_keys. }
  assert (Hnd : NoDup (map fst lines)) by (rewrite E; apply firstKeys_NoDup).
  assert (Hincl : incl (map fst lines) tableLabels).
  { intros c Hc. rewrite E in Hc. apply firstKeys_In, in_map_iff in Hc.
    destruct Hc as (e & <- & _). unfold tableCategory.
    apply firstCategory_label; [simpl; tauto | ].
    unfold categoryMap.
    repeat (apply Forall_cons; [simpl; tauto | ]). apply Forall_nil. }
  split; [exact E | ]. split; [exact Hnd | ]. split; [exact Hincl | ]. split.
  - rewrite <- (length_map fst). change 9%nat with (List.length tableLabels).
    now apply NoDup_incl_length.
  - intros c d. subst lines. rewrite tableCategories_group, group_fold.
    apply categoryLine_items. discriminate.
Qed.
